(** * piano-trainer-utils: the song editor of [scripts/edit_json.py]

    A shallow embedding of [SongEditor], [load_json], [save_json] and [main],
    and the properties of the measure/beat extraction and of the pitch and
    hand filters.

    Modelling conventions.
    - A Python [int] is a [Z].  A beat or a duration is a JSON number; it is
      modelled as an exact rational [Q], so the rounding of binary
      floating-point subtraction is outside this model.  What depends on
      that rounding is stated in module [Binary64], which embeds
      [_extract_beats] over binary64 floats.
    - A note is a Python [dict] read through the four keys of the JSON
      schema.  A key may be absent, so each is an [option] field: [None] is
      "the key is not in the dict".  Values have the types of the schema.
    - A raised exception is the [Raise] case of [result].
    - [deepcopy] is the identity: values are immutable here.

    The file also embeds [musicxml_to_json] of [scripts/conv.py], over the
    attributes it reads off a parsed score, and [validate_config] and
    [generate_section_json] of [scripts/deploy.py], over the keys they read
    off the YAML configuration (module [Deploy]). *)

From Stdlib Require Import ZArith QArith Bool List String Ascii Lia.
From Stdlib Require Import Sorted Permutation DecimalString.
From Stdlib Require Import PrimFloat FloatOps SpecFloat.
Import ListNotations.

Local Open Scope string_scope.
Local Open Scope Z_scope.
Local Open Scope list_scope.

(** ** Exceptions *)

Inductive exn : Type :=
| KeyError (key : string)
| FileNotFoundError
| JSONDecodeError
| OSError
| OtherError (class_name : string).

Inductive result (A : Type) : Type :=
| Ok (a : A)
| Raise (e : exn).

Arguments Ok {A} a.
Arguments Raise {A} e.

Definition bind {A B : Type} (c : result A) (k : A -> result B) : result B :=
  match c with
  | Ok a => k a
  | Raise e => Raise e
  end.

Notation "x <- c ;; k" := (bind c (fun x => k))
  (at level 61, c at next level, right associativity).

(** [d[key]]: raises [KeyError] when the key is absent. *)
Definition getitem {A : Type} (key : string) (field : option A) : result A :=
  match field with
  | Some v => Ok v
  | None => Raise (KeyError key)
  end.

(** [d.get(key, default)]. *)
Definition get {A : Type} (field : option A) (default : A) : A :=
  match field with
  | Some v => v
  | None => default
  end.

(** [key in d]. *)
Definition contains {A : Type} (field : option A) : bool :=
  match field with
  | Some _ => true
  | None => false
  end.

(** [for x in l: acc = body(x, acc)], stopping at the first exception. *)
Fixpoint for_each {A S : Type} (body : A -> S -> result S) (l : list A) (acc : S)
  : result S :=
  match l with
  | [] => Ok acc
  | x :: rest => acc' <- body x acc ;; for_each body rest acc'
  end.

(** ** Data model *)

Record Timing : Type := mkTiming {
  beat : Q;
  duration : Q
}.

Record Note : Type := mkNote {
  pitch : option Z;
  timing : option Timing;
  velocity : option Z;
  hand : option string
}.

(** The song dict, as [json.load] returns it and as every transformation
    builds it. *)
Record SongData : Type := mkSongData {
  sd_title : option string;
  sd_bpm : option Z;
  sd_notes : option (list Note)
}.

Record SongEditor : Type := mkSongEditor {
  song_data : SongData;
  title : string;
  bpm : Z;
  notes : list Note
}.

Definition deepcopy {A : Type} (x : A) : A := x.

(** [str(n)] of a Python [int]. *)
Definition str_int (n : Z) : string := NilZero.string_of_int (Z.to_int n).

(** [a < b] on numbers. *)
Definition Qlt_bool (a b : Q) : bool := negb (Qle_bool b a).

(** [note["timing"]["beat"] = v]. *)
Definition set_timing_beat (note : Note) (v : Q) : result Note :=
  t <- getitem "timing" (timing note) ;;
  Ok {| pitch := pitch note;
        timing := Some {| beat := v; duration := duration t |};
        velocity := velocity note;
        hand := hand note |}.

(** ** SongEditor *)

Definition SongEditor_init (song_data : SongData) : SongEditor :=
  {| song_data := deepcopy song_data;
     title := get (sd_title song_data) "Untitled";
     bpm := get (sd_bpm song_data) 120;
     notes := get (sd_notes song_data) [] |}.

Definition _extract_beats (self : SongEditor) (start_beat end_beat : Q)
    (title_suffix : string) : result SongData :=
  extracted_notes <-
    for_each (fun note extracted_notes =>
      t <- getitem "timing" (timing note) ;;
      let note_beat := beat t in
      if Qle_bool start_beat note_beat && Qlt_bool note_beat end_beat then
        new_note <- set_timing_beat (deepcopy note) (note_beat - start_beat)%Q ;;
        Ok (extracted_notes ++ [new_note])
      else Ok extracted_notes) (notes self) [] ;;
  Ok {| sd_title := Some (title self ++ " (" ++ title_suffix ++ ")")%string;
        sd_bpm := Some (bpm self);
        sd_notes := Some extracted_notes |}.

(** The beat window of a measure range: the arithmetic of
    [extract_measures]. *)
Definition measures_to_beat_range (start_measure end_measure beats_per_measure : Z)
    (pickup_beats : option Z) : Z * Z :=
  let first_measure_beats :=
    match pickup_beats with
    | Some p => p
    | None => beats_per_measure
    end in
  let start_beat :=
    if start_measure =? 1 then 0
    else first_measure_beats + (start_measure - 2) * beats_per_measure in
  let end_beat :=
    if end_measure =? 1 then first_measure_beats
    else first_measure_beats + (end_measure - 1) * beats_per_measure in
  (start_beat, end_beat).

Definition extract_measures (self : SongEditor) (start_measure end_measure : Z)
    (beats_per_measure : Z) (pickup_beats : option Z) : result SongData :=
  let '(start_beat, end_beat) :=
    measures_to_beat_range start_measure end_measure beats_per_measure pickup_beats in
  _extract_beats self (inject_Z start_beat) (inject_Z end_beat)
    ("小節 " ++ str_int start_measure ++ "-" ++ str_int end_measure)%string.

Definition filter_by_pitch (self : SongEditor) (min_pitch max_pitch : option Z)
  : result SongData :=
  filtered_notes <-
    for_each (fun note filtered_notes =>
      pitch <- getitem "pitch" (pitch note) ;;
      if match min_pitch with Some m => pitch <? m | None => false end
      then Ok filtered_notes
      else if match max_pitch with Some m => pitch >? m | None => false end
      then Ok filtered_notes
      else Ok (filtered_notes ++ [deepcopy note])) (notes self) [] ;;
  let title_suffix :=
    (match min_pitch with Some m => [("≥" ++ str_int m)%string] | None => [] end) ++
    (match max_pitch with Some m => [("≤" ++ str_int m)%string] | None => [] end) in
  let title :=
    match title_suffix with
    | [] => title self
    | _ :: _ => (title self ++ " (" ++ String.concat ", " title_suffix ++ ")")%string
    end in
  Ok {| sd_title := Some title;
        sd_bpm := Some (bpm self);
        sd_notes := Some filtered_notes |}.

Definition filter_right_hand (self : SongEditor) (threshold : Z)
    (use_hand_field : bool) : result SongData :=
  filtered_notes <-
    for_each (fun note filtered_notes =>
      if use_hand_field && contains (hand note) then
        h <- getitem "hand" (hand note) ;;
        if String.eqb h "right" then Ok (filtered_notes ++ [deepcopy note])
        else Ok filtered_notes
      else
        p <- getitem "pitch" (pitch note) ;;
        if p >=? threshold then Ok (filtered_notes ++ [deepcopy note])
        else Ok filtered_notes) (notes self) [] ;;
  Ok {| sd_title := Some (title self ++ " (右手)")%string;
        sd_bpm := Some (bpm self);
        sd_notes := Some filtered_notes |}.

Definition filter_left_hand (self : SongEditor) (threshold : Z)
    (use_hand_field : bool) : result SongData :=
  filtered_notes <-
    for_each (fun note filtered_notes =>
      if use_hand_field && contains (hand note) then
        h <- getitem "hand" (hand note) ;;
        if String.eqb h "left" then Ok (filtered_notes ++ [deepcopy note])
        else Ok filtered_notes
      else
        p <- getitem "pitch" (pitch note) ;;
        if p <? threshold then Ok (filtered_notes ++ [deepcopy note])
        else Ok filtered_notes) (notes self) [] ;;
  Ok {| sd_title := Some (title self ++ " (左手)")%string;
        sd_bpm := Some (bpm self);
        sd_notes := Some filtered_notes |}.

(** ** Files *)

(** What a path holds: nothing, text that is not JSON, or the song that
    [json.load] returns for the text.  [Unreadable] stands for every other
    way [open] or the read can fail, with the class of the exception raised
    ([PermissionError], [IsADirectoryError], [UnicodeDecodeError], ...);
    [NoDirectory] is a path whose directory does not exist. *)
Inductive file_state : Type :=
| Missing
| NotJSON
| Holds (d : SongData)
| Unreadable (class_name : string)
| NoDirectory.

Definition load_json (fs : string -> file_state) (file_path : string)
  : result SongData :=
  match fs file_path with
  | Missing => Raise FileNotFoundError
  | NotJSON => Raise JSONDecodeError
  | Holds d => Ok d
  | Unreadable class_name => Raise (OtherError class_name)
  | NoDirectory => Raise FileNotFoundError
  end.

(** [save_json] opens the path for writing; [writable] tells whether that
    open succeeds.  On success the file holds [data].  A failed open raises
    [FileNotFoundError] when the directory of the path does not exist, and
    another [OSError] otherwise. *)
Definition save_json (fs : string -> file_state) (writable : string -> bool)
    (data : SongData) (file_path : string) : result (string * SongData) :=
  if writable file_path then Ok (file_path, data)
  else
    match fs file_path with
    | NoDirectory => Raise FileNotFoundError
    | _ => Raise OSError
    end.

(** ** Command line *)

(** The namespace that [argparse] returns. *)
Record Args : Type := mkArgs {
  arg_input : string;
  arg_output : string;
  arg_bpm : option Z;
  arg_measures : option (Z * Z);
  arg_beats : Z;
  arg_pickup_beats : option Z;
  arg_beat_range : option (Q * Q);
  arg_right_hand : bool;
  arg_left_hand : bool;
  arg_threshold : Z;
  arg_use_pitch_threshold : bool;
  arg_min_pitch : option Z;
  arg_max_pitch : option Z
}.

(** The line written to standard error before [sys.exit(1)]. *)
Inductive message : Type :=
| MsgRightAndLeft
| MsgHandAndPitch
| MsgMeasuresAndBeatRange
| MsgFileNotFound (path : string)
| MsgJSONParse
| MsgException (e : exn).

Record Outcome : Type := mkOutcome {
  exit_code : Z;
  stderr : option message;
  written : option (string * SongData)
}.

(** Truth value of an optional [int]: [None] and [0] are false. *)
Definition truthy_int (o : option Z) : bool :=
  match o with
  | Some n => negb (n =? 0)
  | None => false
  end.

Definition set_bpm (editor : SongEditor) (b : Z) : SongEditor :=
  {| song_data := song_data editor;
     title := title editor;
     bpm := b;
     notes := notes editor |}.

Definition except (e : exn) (args : Args) (w : option (string * SongData))
  : Outcome :=
  match e with
  | FileNotFoundError =>
      {| exit_code := 1; stderr := Some (MsgFileNotFound (arg_input args)); written := w |}
  | JSONDecodeError =>
      {| exit_code := 1; stderr := Some MsgJSONParse; written := w |}
  | _ =>
      {| exit_code := 1; stderr := Some (MsgException e); written := w |}
  end.

Section CLI.

(** [str(x)] of a Python [float], used only in titles. *)
Variable float_str : Q -> string.

Definition extract_beats (self : SongEditor) (start_beat end_beat : Q)
  : result SongData :=
  _extract_beats self start_beat end_beat
    ("beat " ++ float_str start_beat ++ "-" ++ float_str end_beat)%string.

(** The [try] block of [main] up to the call of [save_json]: the song to
    save.  Progress lines on standard output are not modelled. *)
Definition transform (args : Args) (fs : string -> file_state) : result SongData :=
  song_data <- load_json fs (arg_input args) ;;
  let editor := SongEditor_init song_data in
  let result := song_data in
  let editor :=
    match arg_bpm args with
    | Some b => set_bpm editor b
    | None => editor
    end in
  st <- match arg_measures args with
        | Some (start, end_) =>
            result <- extract_measures editor start end_ (arg_beats args)
                        (arg_pickup_beats args) ;;
            Ok (result, SongEditor_init result)
        | None => Ok (result, editor)
        end ;;
  st <- match arg_beat_range args with
        | Some (start, end_) =>
            result <- extract_beats (snd st) start end_ ;;
            Ok (result, SongEditor_init result)
        | None => Ok st
        end ;;
  let '(result, editor) := st in
  let use_hand_field := negb (arg_use_pitch_threshold args) in
  if arg_right_hand args then
    filter_right_hand editor (arg_threshold args) use_hand_field
  else if arg_left_hand args then
    filter_left_hand editor (arg_threshold args) use_hand_field
  else if contains (arg_min_pitch args) || contains (arg_max_pitch args) then
    filter_by_pitch editor (arg_min_pitch args) (arg_max_pitch args)
  else Ok result.

(** [main] from the flag checks on: [args] is the namespace that
    [parser.parse_args()] has returned.  (For a command line that [argparse]
    refuses, and for [-h], the process ends inside [parse_args], before any
    of this.) *)
Definition main (args : Args) (fs : string -> file_state)
    (writable : string -> bool) : Outcome :=
  if arg_right_hand args && arg_left_hand args then
    {| exit_code := 1; stderr := Some MsgRightAndLeft; written := None |}
  else if (arg_right_hand args || arg_left_hand args)
          && (truthy_int (arg_min_pitch args) || truthy_int (arg_max_pitch args)) then
    {| exit_code := 1; stderr := Some MsgHandAndPitch; written := None |}
  else if contains (arg_measures args) && contains (arg_beat_range args) then
    {| exit_code := 1; stderr := Some MsgMeasuresAndBeatRange; written := None |}
  else
    match transform args fs with
    | Raise e => except e args None
    | Ok result =>
        match save_json fs writable result (arg_output args) with
        | Raise e => except e args None
        | Ok w =>
            match getitem "title" (sd_title result) with
            | Raise e => except e args (Some w)
            | Ok _ => {| exit_code := 0; stderr := None; written := Some w |}
            end
        end
    end.

End CLI.

(** The notes of the song a transformation returns. *)
Definition result_notes (r : result SongData) : option (list Note) :=
  match r with
  | Ok d => sd_notes d
  | Raise _ => None
  end.

(** ** Selection predicates *)

Definition has_pitch (n : Note) : bool := contains (pitch n).

Definition has_timing (n : Note) : bool := contains (timing n).

(** The notes of the data model: both required keys are present. *)
Definition well_formed (n : Note) : bool := has_pitch n && has_timing n.

(** The hand marking, when present, is one of the two hands. *)
Definition hand_is_left_or_right (n : Note) : bool :=
  match hand n with
  | Some h => String.eqb h "left" || String.eqb h "right"
  | None => true
  end.

(** [min_pitch <= pitch <= max_pitch], an absent bound not constraining. *)
Definition in_pitch_range (min_pitch max_pitch : option Z) (n : Note) : bool :=
  match pitch n with
  | Some p =>
      match min_pitch with Some m => m <=? p | None => true end
      && match max_pitch with Some m => p <=? m | None => true end
  | None => false
  end.

(** The hand marking the filters look at: the note's own when hand fields
    are in use, none otherwise. *)
Definition marking (use_hand_field : bool) (n : Note) : option string :=
  if use_hand_field then hand n else None.

(** A note of the right-hand part: marked "right", or unmarked and at or
    above the threshold. *)
Definition right_hand_note (threshold : Z) (use_hand_field : bool) (n : Note)
  : bool :=
  match marking use_hand_field n with
  | Some h => String.eqb h "right"
  | None =>
      match pitch n with
      | Some p => threshold <=? p
      | None => false
      end
  end.

(** A note of the left-hand part: marked "left", or unmarked and below the
    threshold. *)
Definition left_hand_note (threshold : Z) (use_hand_field : bool) (n : Note)
  : bool :=
  match marking use_hand_field n with
  | Some h => String.eqb h "left"
  | None =>
      match pitch n with
      | Some p => p <? threshold
      | None => false
      end
  end.

(** The beat of a note, [0] when the note has no timing. *)
Definition note_beat (n : Note) : Q :=
  match timing n with
  | Some t => beat t
  | None => 0%Q
  end.

(** [start_beat <= beat < end_beat]. *)
Definition in_window (start_beat end_beat : Q) (n : Note) : bool :=
  match timing n with
  | Some t => Qle_bool start_beat (beat t) && Qlt_bool (beat t) end_beat
  | None => false
  end.

(** The copy that extraction makes of a note: the beat moved back by
    [start_beat], everything else as it was. *)
Definition rebased (start_beat : Q) (n : Note) : Note :=
  match timing n with
  | Some t =>
      {| pitch := pitch n;
         timing := Some {| beat := (beat t - start_beat)%Q; duration := duration t |};
         velocity := velocity n;
         hand := hand n |}
  | None => n
  end.

Definition sorted_by_beat (l : list Note) : Prop :=
  Sorted (fun a b => (note_beat a <= note_beat b)%Q) l.

(** ** Sample songs and invocations *)

Definition quarter_at (b : Q) : option Timing :=
  Some {| beat := b; duration := 1%Q |}.

Definition plain_note (p : Z) (b : Q) : Note :=
  {| pitch := Some p; timing := quarter_at b; velocity := None; hand := None |}.

Definition marked_note (p : Z) (b : Q) (h : string) : Note :=
  {| pitch := Some p; timing := quarter_at b; velocity := None; hand := Some h |}.

Definition song_of (ns : list Note) : SongData :=
  {| sd_title := Some "T"; sd_bpm := Some 100; sd_notes := Some ns |}.

(** One note marked "left" and one unmarked note, both at pitch 70. *)
Definition left_and_unmarked : SongData :=
  song_of [marked_note 70 0 "left"; plain_note 70 1].

(** Pitches 47, 48, 72 and 73 on successive beats. *)
Definition boundary_pitches : SongData :=
  song_of [plain_note 47 0; plain_note 48 1; plain_note 72 2; plain_note 73 3].

(** A note entry with no "pitch" key. *)
Definition note_without_pitch : Note :=
  {| pitch := None; timing := quarter_at 0; velocity := None; hand := None |}.

(** A note entry with no "timing" key. *)
Definition note_without_timing : Note :=
  {| pitch := Some 60; timing := None; velocity := None; hand := None |}.

(** A song file with neither "title" nor "bpm". *)
Definition untitled_song : SongData :=
  {| sd_title := None; sd_bpm := None; sd_notes := Some [plain_note 60 0] |}.

(** [edit_json.py in.json -o out.json] with every option at its default. *)
Definition default_args : Args :=
  {| arg_input := "in.json";
     arg_output := "out.json";
     arg_bpm := None;
     arg_measures := None;
     arg_beats := 4;
     arg_pickup_beats := None;
     arg_beat_range := None;
     arg_right_hand := false;
     arg_left_hand := false;
     arg_threshold := 60;
     arg_use_pitch_threshold := false;
     arg_min_pitch := None;
     arg_max_pitch := None |}.



(** A file system where only "in.json" exists, holding [d]. *)
Definition only_input (d : SongData) (path : string) : file_state :=
  if String.eqb path "in.json" then Holds d else Missing.

Definition all_writable (path : string) : bool := true.

(** A stand-in for the text of a float, for invocations that print none. *)
Definition no_float_text (x : Q) : string := EmptyString.

(** ** Reading the notes *)

(** A note the hand filters can read: it carries the marking they look at,
    or it has a pitch for the fallback. *)
Definition readable_by_hand_filter (use_hand_field : bool) (n : Note) : bool :=
  contains (marking use_hand_field n) || has_pitch n.

(** Whether an invocation asks for an extraction or a filter. *)
Definition selects_transformation (args : Args) : bool :=
  contains (arg_measures args) || contains (arg_beat_range args)
  || arg_right_hand args || arg_left_hand args
  || contains (arg_min_pitch args) || contains (arg_max_pitch args).

Definition with_bpm (args : Args) (b : Z) : Args :=
  mkArgs (arg_input args) (arg_output args) (Some b) (arg_measures args)
    (arg_beats args) (arg_pickup_beats args) (arg_beat_range args)
    (arg_right_hand args) (arg_left_hand args) (arg_threshold args)
    (arg_use_pitch_threshold args) (arg_min_pitch args) (arg_max_pitch args).

Definition with_right_hand (args : Args) : Args :=
  mkArgs (arg_input args) (arg_output args) (arg_bpm args) (arg_measures args)
    (arg_beats args) (arg_pickup_beats args) (arg_beat_range args)
    true (arg_left_hand args) (arg_threshold args)
    (arg_use_pitch_threshold args) (arg_min_pitch args) (arg_max_pitch args).

Definition with_left_hand (args : Args) : Args :=
  mkArgs (arg_input args) (arg_output args) (arg_bpm args) (arg_measures args)
    (arg_beats args) (arg_pickup_beats args) (arg_beat_range args)
    (arg_right_hand args) true (arg_threshold args)
    (arg_use_pitch_threshold args) (arg_min_pitch args) (arg_max_pitch args).


(** A note selected by the extraction of measures [s..e]. *)
Definition in_measures (start_measure end_measure beats_per_measure : Z)
    (pickup_beats : option Z) (n : Note) : bool :=
  in_window
    (inject_Z (fst (measures_to_beat_range start_measure end_measure
                      beats_per_measure pickup_beats)))
    (inject_Z (snd (measures_to_beat_range start_measure end_measure
                      beats_per_measure pickup_beats))) n.

(** ** The MusicXML converter of [scripts/conv.py]

    The score is what [music21] hands over after parsing; it is modelled by
    the attributes [musicxml_to_json] reads off it.  An element of
    [part.flatten().notes] is a note ([isNote]), a chord ([isChord]) or
    something else; [velocity] is [element.volume.velocity]. *)

Inductive Element : Type :=
| ElNote (midi : Z) (offset quarterLength : Q) (volume_velocity : option Z)
| ElChord (pitches : list Z) (offset quarterLength : Q) (volume_velocity : option Z)
| ElOther.

Record Score : Type := mkScore {
  metadata_title : option string;  (* [None]: no metadata, or no title in it *)
  tempo_marks : list Q;            (* the [number] of each metronome mark *)
  parts : list (list Element)
}.

(** [int(x)] of a number: truncation towards zero. *)
Definition int_of_number (x : Q) : Z := Z.quot (Qnum x) (Z.pos (Qden x)).

Definition string_is_empty (s : string) : bool :=
  match s with
  | EmptyString => true
  | String _ _ => false
  end.

(** The dict built for one sounding pitch: "velocity" only when it is given
    and not 80, "hand" only when the hand is "left". *)
Definition note_dict (midi : Z) (offset quarterLength : Q)
    (volume_velocity : option Z) (hand : string) : Note :=
  {| pitch := Some midi;
     timing := Some {| beat := offset; duration := quarterLength |};
     velocity :=
       match volume_velocity with
       | Some v => if negb (v =? 80) then Some v else None
       | None => None
       end;
     hand := if String.eqb hand "left" then Some hand else None |}.

(** The dicts appended for one element: one for a note, one per pitch for a
    chord, none otherwise. *)
Definition element_notes (hand : string) (element : Element) : list Note :=
  match element with
  | ElNote midi offset quarterLength v => [note_dict midi offset quarterLength v hand]
  | ElChord pitches offset quarterLength v =>
      map (fun midi => note_dict midi offset quarterLength v hand) pitches
  | ElOther => []
  end.

Definition part_hand (part_idx : nat) : string :=
  if Nat.eqb part_idx 0 then "right" else "left".

(** The loop over [enumerate(parts)], from index [part_idx] on. *)
Fixpoint parts_notes (part_idx : nat) (parts : list (list Element)) : list Note :=
  match parts with
  | [] => []
  | part :: rest =>
      flat_map (element_notes (part_hand part_idx)) part
      ++ parts_notes (S part_idx) rest
  end.

(** [list.sort(key=beat)] is a stable sort; it is modelled by the stable
    insertion sort, which returns the same list. *)
Fixpoint insert_by_beat (x : Note) (l : list Note) : list Note :=
  match l with
  | [] => [x]
  | y :: rest =>
      if Qle_bool (note_beat x) (note_beat y) then x :: l
      else y :: insert_by_beat x rest
  end.

Definition sort_by_beat (l : list Note) : list Note :=
  fold_right insert_by_beat [] l.

Definition musicxml_to_json (score : Score) : SongData :=
  let title :=
    match metadata_title score with
    | Some t => if string_is_empty t then "Untitled" else t
    | None => "Untitled"
    end in
  let bpm :=
    match tempo_marks score with
    | number :: _ => int_of_number number
    | [] => 120
    end in
  let notes_data := sort_by_beat (parts_notes 0 (parts score)) in
  {| sd_title := Some title; sd_bpm := Some bpm; sd_notes := Some notes_data |}.

(** The number of pitches an element sounds. *)
Definition element_size (element : Element) : nat :=
  match element with
  | ElNote _ _ _ _ => 1
  | ElChord pitches _ _ _ => List.length pitches
  | ElOther => 0
  end.

(** The notes that sound on beat [k]. *)
Definition on_beat (k : Q) (n : Note) : bool := Qeq_bool (note_beat n) k.

(** A two-staff score: a right-hand part with a low and a high note, and a
    left-hand part with a chord. *)
Definition two_staves : Score :=
  {| metadata_title := Some "Etude";
     tempo_marks := [(181 # 2)%Q];
     parts := [[ElNote 72 1 1 (Some 80); ElNote 55 0 1 (Some 64)];
               [ElChord [36; 43] 0 2 None]] |}.

(** ** The deployment tool of [scripts/deploy.py]

    The configuration is what [yaml.safe_load] returns.  It is modelled by
    the keys the tool reads, each possibly absent.  Where the tool asks
    [isinstance(v, list)], the value is a list or something that is not one.
    A range bound is a YAML number, an [int] or a [float]. *)

Module Deploy.

Inductive number : Type :=
| Int (z : Z)
| Float (x : Q).

Definition number_value (n : number) : Q :=
  match n with
  | Int z => inject_Z z
  | Float x => x
  end.

(** [a > b] on numbers. *)
Definition number_gt (a b : number) : bool :=
  Qlt_bool (number_value b) (number_value a).

Inductive yaml_list (A : Type) : Type :=
| NotAList
| AList (items : list A).

Arguments NotAList {A}.
Arguments AList {A} items.

#[warnings="-register-all"]
Inductive SectionCfg : Type :=
| mkSectionCfg (name : option string)
    (measures beats : option (yaml_list number))
    (sections : option (yaml_list SectionCfg)).

Record Config : Type := mkConfig {
  cfg_title : option string;
  cfg_bpm : option Z;
  cfg_branch : option string;
  cfg_source : option string;
  cfg_sections : option (yaml_list SectionCfg);
  cfg_beats : option Z;
  cfg_pickup_beats : option Z
}.

(** The text of a [DeployError]. *)
Inductive deploy_message : Type :=
| MissingField (field : string)
| SectionsNotAList
| SectionsEmpty
| SectionWithoutName (path : string)
| MeasuresAndBeats (current_path : string)
| NeitherMeasuresNorBeats (current_path : string)
| MeasuresNotAPair (current_path : string)
| MeasuresReversed (current_path : string)
| BeatsNotAPair (current_path : string)
| BeatsReversed (current_path : string)
| SubsectionsNotAList (current_path : string)
| SourceNotFound (source_file : string)
| GenerationFailed (section_path : string).

Inductive exn : Type :=
| DeployError (m : deploy_message)
| KeyError (key : string)
| IndexError
| TypeError
| OtherError (class_name : string).

(** How a command given to [subprocess.run(..., check=True)] ends: it exits
    with status 0, it exits with another status and [CalledProcessError] is
    raised, or it cannot be started and [subprocess.run] raises the
    exception of the failed start ([FileNotFoundError] when the program is
    not found, for one). *)
Inductive run_outcome : Type :=
| Completed
| CalledProcessError
| NotStarted (class_name : string).

Inductive result (A : Type) : Type :=
| Ok (a : A)
| Raise (e : exn).

Arguments Ok {A} a.
Arguments Raise {A} e.

Definition bind {A B : Type} (c : result A) (k : A -> result B) : result B :=
  match c with
  | Ok a => k a
  | Raise e => Raise e
  end.

#[warnings="-notation-overridden"]
Notation "x <- c ;; k" := (bind c (fun x => k))
  (at level 61, c at next level, right associativity).

Definition getitem {A : Type} (key : string) (field : option A) : result A :=
  match field with
  | Some v => Ok v
  | None => Raise (KeyError key)
  end.

(** [v[i]] where [v] should be a list. *)
Definition index {A : Type} (v : yaml_list A) (i : nat) : result A :=
  match v with
  | NotAList => Raise TypeError
  | AList items =>
      match nth_error items i with
      | Some x => Ok x
      | None => Raise IndexError
      end
  end.

(** [field in config] for the keys the tool reads. *)
Definition config_contains (config : Config) (field : string) : bool :=
  if String.eqb field "title" then contains (cfg_title config)
  else if String.eqb field "bpm" then contains (cfg_bpm config)
  else if String.eqb field "branch" then contains (cfg_branch config)
  else if String.eqb field "source" then contains (cfg_source config)
  else if String.eqb field "sections" then contains (cfg_sections config)
  else if String.eqb field "beats" then contains (cfg_beats config)
  else if String.eqb field "pickup_beats" then contains (cfg_pickup_beats config)
  else false.

Definition required_fields : list string :=
  ["title"; "bpm"; "branch"; "source"; "sections"].

Fixpoint check_required (config : Config) (fields : list string) : result unit :=
  match fields with
  | [] => Ok tt
  | field :: rest =>
      if negb (config_contains config field)
      then Raise (DeployError (MissingField field))
      else check_required config rest
  end.

(** The check of one range: a list of two numbers, not in reverse order. *)
Definition check_range (range : yaml_list number)
    (not_a_pair reversed : deploy_message) : result unit :=
  match range with
  | NotAList => Raise (DeployError not_a_pair)
  | AList [a; b] =>
      if number_gt a b then Raise (DeployError reversed) else Ok tt
  | AList _ => Raise (DeployError not_a_pair)
  end.

Fixpoint validate_section (section : SectionCfg) (path : string) : result unit :=
  match section with
  | mkSectionCfg name measures beats sections =>
      match name with
      | None => Raise (DeployError (SectionWithoutName path))
      | Some section_name =>
          let current_path :=
            if negb (string_is_empty path)
            then (path ++ "/" ++ section_name)%string
            else section_name in
          let has_measures := contains measures in
          let has_beats := contains beats in
          if has_measures && has_beats then
            Raise (DeployError (MeasuresAndBeats current_path))
          else if negb has_measures && negb has_beats then
            Raise (DeployError (NeitherMeasuresNorBeats current_path))
          else
            _ <- match measures with
                 | Some m => check_range m (MeasuresNotAPair current_path)
                               (MeasuresReversed current_path)
                 | None => Ok tt
                 end ;;
            _ <- match beats with
                 | Some b => check_range b (BeatsNotAPair current_path)
                               (BeatsReversed current_path)
                 | None => Ok tt
                 end ;;
            match sections with
            | None => Ok tt
            | Some NotAList => Raise (DeployError (SubsectionsNotAList current_path))
            | Some (AList subsections) =>
                (fix each (l : list SectionCfg) : result unit :=
                   match l with
                   | [] => Ok tt
                   | subsection :: rest =>
                       _ <- validate_section subsection current_path ;; each rest
                   end) subsections
            end
      end
  end.

Fixpoint validate_sections (sections : list SectionCfg) : result unit :=
  match sections with
  | [] => Ok tt
  | section :: rest => _ <- validate_section section "" ;; validate_sections rest
  end.

Definition validate_config (config : Config) : result unit :=
  _ <- check_required config required_fields ;;
  sections <- getitem "sections" (cfg_sections config) ;;
  match sections with
  | NotAList => Raise (DeployError SectionsNotAList)
  | AList [] => Raise (DeployError SectionsEmpty)
  | AList items => validate_sections items
  end.

(** A range the validation accepts: two numbers, the first not above the
    second. *)
Definition valid_range (range : option (yaml_list number)) : Prop :=
  exists a b, range = Some (AList [a; b]) /\ (number_value a <= number_value b)%Q.

(** A section the validation accepts: a name, exactly one of the two
    ranges, well formed, and subsections that are a list of such sections. *)
#[warnings="-register-all"]
Inductive valid_section : SectionCfg -> Prop :=
| valid_section_intro (name : string) (measures beats : option (yaml_list number))
    (sections : option (yaml_list SectionCfg)) :
    (valid_range measures /\ beats = None) \/ (measures = None /\ valid_range beats) ->
    (sections = None \/
     exists subsections,
       sections = Some (AList subsections) /\ Forall valid_section subsections) ->
    valid_section (mkSectionCfg (Some name) measures beats sections).

Definition valid_config (config : Config) : Prop :=
  cfg_title config <> None /\ cfg_bpm config <> None /\
  cfg_branch config <> None /\ cfg_source config <> None /\
  exists first rest,
    cfg_sections config = Some (AList (first :: rest)) /\
    Forall valid_section (first :: rest).

Definition EDIT_JSON_SCRIPT : string := "scripts/edit_json.py".

Definition build_section_path (parent_path section_name : string) : string :=
  if negb (string_is_empty parent_path)
  then (parent_path ++ "-" ++ section_name)%string
  else section_name.

(** [s.count(c)] for a one-character [c]. *)
Fixpoint count_char (c : ascii) (s : string) : nat :=
  match s with
  | EmptyString => 0
  | String a rest => (if Ascii.eqb a c then 1 else 0) + count_char c rest
  end.

(** [s.split(c)] for a one-character [c]. *)
Fixpoint split_on (c : ascii) (s : string) : list string :=
  match s with
  | EmptyString => [EmptyString]
  | String a rest =>
      if Ascii.eqb a c then EmptyString :: split_on c rest
      else
        match split_on c rest with
        | [] => [String a EmptyString]
        | field :: fields => String a field :: fields
        end
  end.

(** The two readings [generate_readme] makes of a section path. *)
Definition count_depth (section_path : string) : nat :=
  count_char "-"%char section_path.

Definition display_name (section_path : string) : string :=
  last (split_on "-"%char section_path) EmptyString.

Section Generation.

(** The world [generate_section_json] acts in: how [pathlib] joins two
    paths, which paths exist, how a command run by [subprocess.run] ends,
    and the text of a [float]. *)
Variable path_join : string -> string -> string.
Variable path_exists : string -> bool.
Variable run : list string -> run_outcome.
Variable float_str : Q -> string.

Definition str_number (n : number) : string :=
  match n with
  | Int z => str_int z
  | Float x => float_str x
  end.

Fixpoint generate_section_json (config : Config) (section : SectionCfg)
    (song_dir parent_path : string) {struct section}
  : result (list (string * string * string)) :=
  match section with
  | mkSectionCfg name measures beats sections =>
      section_name <- getitem "name" name ;;
      let section_path := build_section_path parent_path section_name in
      let output_file :=
        path_join (path_join song_dir "generated") (section_path ++ ".json")%string in
      source <- getitem "source" (cfg_source config) ;;
      let source_file := path_join song_dir source in
      if negb (path_exists source_file) then
        Raise (DeployError (SourceNotFound source_file))
      else
        let cmd := ["python"; EDIT_JSON_SCRIPT; source_file; "-o"; output_file] in
        built <-
          (if contains measures then
             m <- getitem "measures" measures ;;
             m0 <- index m 0 ;;
             m1 <- index m 1 ;;
             let cmd := cmd ++ ["--measures"; str_number m0; str_number m1] in
             let cmd :=
               match cfg_beats config with
               | Some b => cmd ++ ["--beats"; str_int b]
               | None => cmd
               end in
             let cmd :=
               match cfg_pickup_beats config with
               | Some p => cmd ++ ["--pickup-beats"; str_int p]
               | None => cmd
               end in
             Ok (cmd, ("measures " ++ str_number m0 ++ "-" ++ str_number m1)%string)
           else
             b <- getitem "beats" beats ;;
             b0 <- index b 0 ;;
             b1 <- index b 1 ;;
             Ok (cmd ++ ["--beat-range"; str_number b0; str_number b1],
                 ("beats " ++ str_number b0 ++ "-" ++ str_number b1)%string)) ;;
        match run (fst built) with
        | CalledProcessError => Raise (DeployError (GenerationFailed section_path))
        | NotStarted class_name => Raise (OtherError class_name)
        | Completed =>
            let results := [(section_path, output_file, snd built)] in
            match sections with
            | None => Ok results
            | Some NotAList => Raise TypeError
            | Some (AList subsections) =>
                (fix each (l : list SectionCfg)
                          (results : list (string * string * string))
                   : result (list (string * string * string)) :=
                   match l with
                   | [] => Ok results
                   | subsection :: rest =>
                       sub_results <-
                         generate_section_json config subsection song_dir
                           section_path ;;
                       each rest (results ++ sub_results)
                   end) subsections results
            end
        end
  end.

End Generation.

(** The sections of a tree in the order they are generated, each with its
    depth and its name. *)
Fixpoint outline (depth : nat) (section : SectionCfg) : list (nat * string) :=
  match section with
  | mkSectionCfg name _ _ sections =>
      (depth, get name EmptyString)
      :: match sections with
         | Some (AList subsections) => flat_map (outline (S depth)) subsections
         | _ => []
         end
  end.

(** A name that is not empty and holds no hyphen. *)
Definition plain_name (s : string) : bool :=
  negb (string_is_empty s) && Nat.eqb (count_char "-"%char s) 0.

(** A verse of measures 1-8 with two halves, the second given in beats. *)
Definition verse : SectionCfg :=
  mkSectionCfg (Some "verse") (Some (AList [Int 1; Int 8])) None
    (Some (AList
       [mkSectionCfg (Some "a") (Some (AList [Int 1; Int 4])) None None;
        mkSectionCfg (Some "b") None (Some (AList [Float 16; Float 32])) None])).

Definition song_config : Config :=
  {| cfg_title := Some "Song";
     cfg_bpm := Some 96;
     cfg_branch := Some "song";
     cfg_source := Some "source/full.json";
     cfg_sections := Some (AList [verse]);
     cfg_beats := Some 4;
     cfg_pickup_beats := None |}.

Definition slash_join (a b : string) : string := (a ++ "/" ++ b)%string.

Definition every_path_exists (path : string) : bool := true.

Definition every_run_succeeds (cmd : list string) : run_outcome := Completed.

End Deploy.

(** ** Beats as binary64 floats

    A Python [float] is an IEEE 754 binary64 number, and so is a primitive
    float of Rocq: same values, same comparisons, same round-to-nearest-even
    subtraction.  This module embeds [_extract_beats] over them, for what
    depends on the rounding of [note_beat - start_beat]. *)

Module Binary64.

Record Timing : Type := mkTiming {
  beat : float;
  duration : float
}.

Record Note : Type := mkNote {
  pitch : option Z;
  timing : option Timing;
  velocity : option Z;
  hand : option string
}.

Record SongData : Type := mkSongData {
  sd_title : option string;
  sd_bpm : option Z;
  sd_notes : option (list Note)
}.

Record SongEditor : Type := mkSongEditor {
  song_data : SongData;
  title : string;
  bpm : Z;
  notes : list Note
}.

(** [note["timing"]["beat"] = v]. *)
Definition set_timing_beat (note : Note) (v : float) : result Note :=
  t <- getitem "timing" (timing note) ;;
  Ok {| pitch := pitch note;
        timing := Some {| beat := v; duration := duration t |};
        velocity := velocity note;
        hand := hand note |}.

Definition SongEditor_init (song_data : SongData) : SongEditor :=
  {| song_data := deepcopy song_data;
     title := get (sd_title song_data) "Untitled";
     bpm := get (sd_bpm song_data) 120;
     notes := get (sd_notes song_data) [] |}.

Definition _extract_beats (self : SongEditor) (start_beat end_beat : float)
    (title_suffix : string) : result SongData :=
  extracted_notes <-
    for_each (fun note extracted_notes =>
      t <- getitem "timing" (timing note) ;;
      let note_beat := beat t in
      if PrimFloat.leb start_beat note_beat && PrimFloat.ltb note_beat end_beat then
        new_note <- set_timing_beat (deepcopy note)
                      (PrimFloat.sub note_beat start_beat) ;;
        Ok (extracted_notes ++ [new_note])
      else Ok extracted_notes) (notes self) [] ;;
  Ok {| sd_title := Some (title self ++ " (" ++ title_suffix ++ ")")%string;
        sd_bpm := Some (bpm self);
        sd_notes := Some extracted_notes |}.

Definition result_notes (r : result SongData) : option (list Note) :=
  match r with
  | Ok d => sd_notes d
  | Raise _ => None
  end.

Definition has_timing (n : Note) : bool := contains (timing n).

(** [start_beat <= beat < end_beat], as floats compare. *)
Definition in_window (start_beat end_beat : float) (n : Note) : bool :=
  match timing n with
  | Some t => PrimFloat.leb start_beat (beat t) && PrimFloat.ltb (beat t) end_beat
  | None => false
  end.




End Binary64.

(** ** The loop of the filters *)

(** A loop whose body appends [sel x] to the accumulator returns the
    accumulator followed by the selections, in order. *)
Lemma for_each_select {A B : Type} (body : A -> list B -> result (list B))
    (sel : A -> list B) (l : list A) :
  (forall x, In x l -> forall acc, body x acc = Ok (acc ++ sel x)) ->
  forall acc, for_each body l acc = Ok (acc ++ flat_map sel l).
Proof.
  induction l as [| x rest IH]; intros Hbody acc; simpl.
  - now rewrite app_nil_r.
  - rewrite (Hbody x (or_introl eq_refl)). simpl.
    rewrite IH.
    + now rewrite app_assoc.
    + intros y Hy. apply Hbody. now right.
Qed.

Lemma flat_map_keep {A : Type} (keep : A -> bool) (l : list A) :
  flat_map (fun x => if keep x then [x] else []) l = filter keep l.
Proof.
  induction l as [| x rest IH]; simpl; [reflexivity |].
  rewrite IH. now destruct (keep x).
Qed.

Lemma flat_map_keep_map {A B : Type} (keep : A -> bool) (f : A -> B) (l : list A) :
  flat_map (fun x => if keep x then [f x] else []) l = map f (filter keep l).
Proof.
  induction l as [| x rest IH]; simpl; [reflexivity |].
  rewrite IH. now destruct (keep x).
Qed.

Lemma forallb_In {A : Type} (p : A -> bool) (l : list A) (x : A) :
  forallb p l = true -> In x l -> p x = true.
Proof.
  intros H Hx. rewrite forallb_forall in H. now apply H.
Qed.

Lemma forallb_filter {A : Type} (p keep : A -> bool) (l : list A) :
  forallb p l = true -> forallb p (filter keep l) = true.
Proof.
  rewrite !forallb_forall. intros H x Hx.
  apply filter_In in Hx. now apply H.
Qed.

Lemma filter_twice {A : Type} (keep : A -> bool) (l : list A) :
  filter keep (filter keep l) = filter keep l.
Proof.
  induction l as [| x rest IH]; simpl; [reflexivity |].
  destruct (keep x) eqn:E; simpl; [rewrite E |]; now rewrite ?IH.
Qed.

(** ** What each transformation returns *)

Lemma filter_by_pitch_returns (self : SongEditor) (min_pitch max_pitch : option Z) :
  forallb has_pitch (notes self) = true ->
  exists t,
    filter_by_pitch self min_pitch max_pitch =
    Ok {| sd_title := Some t;
          sd_bpm := Some (bpm self);
          sd_notes := Some (filter (in_pitch_range min_pitch max_pitch) (notes self)) |}.
Proof.
  intros Hwf. unfold filter_by_pitch.
  rewrite (for_each_select _
             (fun n => if in_pitch_range min_pitch max_pitch n then [n] else [])).
  - simpl. rewrite flat_map_keep. eexists. reflexivity.
  - intros n Hn acc.
    pose proof (forallb_In _ _ _ Hwf Hn) as Hp.
    unfold has_pitch, in_pitch_range, deepcopy in *.
    destruct (pitch n) as [p |]; [| discriminate]. simpl.
    destruct min_pitch as [lo |], max_pitch as [hi |];
      rewrite ?Z.gtb_ltb, ?(Z.ltb_antisym lo p), ?(Z.ltb_antisym p);
      repeat match goal with
             | |- context [?a <=? ?b] => destruct (a <=? b)
             end; simpl; now rewrite ?app_nil_r.
Qed.

Lemma filter_right_hand_returns (self : SongEditor) (threshold : Z) (use : bool) :
  forallb has_pitch (notes self) = true ->
  filter_right_hand self threshold use =
  Ok {| sd_title := Some (title self ++ " (右手)")%string;
        sd_bpm := Some (bpm self);
        sd_notes := Some (filter (right_hand_note threshold use) (notes self)) |}.
Proof.
  intros Hwf. unfold filter_right_hand.
  rewrite (for_each_select _
             (fun n => if right_hand_note threshold use n then [n] else [])).
  - simpl. now rewrite flat_map_keep.
  - intros n Hn acc.
    pose proof (forallb_In _ _ _ Hwf Hn) as Hp.
    unfold has_pitch, right_hand_note, marking, deepcopy in *.
    destruct (pitch n) as [p |]; [| discriminate].
    destruct use, (hand n) as [h |]; simpl; rewrite ?Z.geb_leb;
      repeat match goal with
             | |- context [if ?c then _ else _] => destruct c
             end; simpl; now rewrite ?app_nil_r.
Qed.

Lemma filter_left_hand_returns (self : SongEditor) (threshold : Z) (use : bool) :
  forallb has_pitch (notes self) = true ->
  filter_left_hand self threshold use =
  Ok {| sd_title := Some (title self ++ " (左手)")%string;
        sd_bpm := Some (bpm self);
        sd_notes := Some (filter (left_hand_note threshold use) (notes self)) |}.
Proof.
  intros Hwf. unfold filter_left_hand.
  rewrite (for_each_select _
             (fun n => if left_hand_note threshold use n then [n] else [])).
  - simpl. now rewrite flat_map_keep.
  - intros n Hn acc.
    pose proof (forallb_In _ _ _ Hwf Hn) as Hp.
    unfold has_pitch, left_hand_note, marking, deepcopy in *.
    destruct (pitch n) as [p |]; [| discriminate].
    destruct use, (hand n) as [h |]; simpl;
      repeat match goal with
             | |- context [if ?c then _ else _] => destruct c
             end; simpl; now rewrite ?app_nil_r.
Qed.

Lemma _extract_beats_returns (self : SongEditor) (start_beat end_beat : Q)
    (title_suffix : string) :
  forallb has_timing (notes self) = true ->
  _extract_beats self start_beat end_beat title_suffix =
  Ok {| sd_title := Some (title self ++ " (" ++ title_suffix ++ ")")%string;
        sd_bpm := Some (bpm self);
        sd_notes :=
          Some (map (rebased start_beat)
                  (filter (in_window start_beat end_beat) (notes self))) |}.
Proof.
  intros Hwf. unfold _extract_beats.
  rewrite (for_each_select _
             (fun n => if in_window start_beat end_beat n
                       then [rebased start_beat n] else [])).
  - simpl. now rewrite flat_map_keep_map.
  - intros n Hn acc.
    pose proof (forallb_In _ _ _ Hwf Hn) as Ht.
    unfold has_timing, in_window, rebased, set_timing_beat, deepcopy in *.
    destruct (timing n) as [t |]; [| discriminate]. simpl.
    destruct (Qle_bool start_beat (beat t) && Qlt_bool (beat t) end_beat).
    + reflexivity.
    + now rewrite app_nil_r.
Qed.

Lemma extract_measures_returns (self : SongEditor) (start_measure end_measure : Z)
    (beats_per_measure : Z) (pickup_beats : option Z) :
  forallb has_timing (notes self) = true ->
  exists t,
    extract_measures self start_measure end_measure beats_per_measure pickup_beats =
    Ok {| sd_title := Some t;
          sd_bpm := Some (bpm self);
          sd_notes :=
            Some (map (rebased (inject_Z (fst (measures_to_beat_range
                         start_measure end_measure beats_per_measure pickup_beats))))
                    (filter (in_window
                       (inject_Z (fst (measures_to_beat_range
                          start_measure end_measure beats_per_measure pickup_beats)))
                       (inject_Z (snd (measures_to_beat_range
                          start_measure end_measure beats_per_measure pickup_beats))))
                       (notes self))) |}.
Proof.
  intros Hwf. unfold extract_measures.
  destruct (measures_to_beat_range _ _ _ _) as [s e]. simpl.
  rewrite _extract_beats_returns by assumption. eexists. reflexivity.
Qed.

Lemma in_window_iff (start_beat end_beat : Q) (n : Note) :
  in_window start_beat end_beat n = true <->
  exists t, timing n = Some t /\ (start_beat <= beat t)%Q /\ (beat t < end_beat)%Q.
Proof.
  unfold in_window, Qlt_bool. destruct (timing n) as [t |].
  - rewrite andb_true_iff, negb_true_iff, Qle_bool_iff. split.
    + intros [Hle Hlt]. exists t. repeat split; [assumption |].
      apply Qnot_le_lt. intro Hc. apply Qle_bool_iff in Hc. congruence.
    + intros [t' [Heq [Hle Hlt]]]. injection Heq as <-. split; [assumption |].
      destruct (Qle_bool end_beat (beat t)) eqn:E; [| reflexivity].
      apply Qle_bool_iff in E. exfalso. exact (Qlt_not_le _ _ Hlt E).
  - split; [discriminate |]. intros [t [Heq _]]. discriminate.
Qed.

Lemma well_formed_has_pitch (l : list Note) :
  forallb well_formed l = true -> forallb has_pitch l = true.
Proof.
  rewrite !forallb_forall. intros H n Hn.
  specialize (H n Hn). unfold well_formed in H.
  now apply andb_true_iff in H.
Qed.

Lemma well_formed_has_timing (l : list Note) :
  forallb well_formed l = true -> forallb has_timing l = true.
Proof.
  rewrite !forallb_forall. intros H n Hn.
  specialize (H n Hn). unfold well_formed in H.
  now apply andb_true_iff in H.
Qed.

(** ** Order of the notes *)

Lemma beat_le_trans :
  Relations_1.Transitive (fun a b : Note => (note_beat a <= note_beat b)%Q).
Proof.
  intros a b c Hab Hbc. exact (Qle_trans _ _ _ Hab Hbc).
Qed.

Lemma StronglySorted_filter {A : Type} (R : A -> A -> Prop) (keep : A -> bool)
    (l : list A) :
  StronglySorted R l -> StronglySorted R (filter keep l).
Proof.
  induction 1 as [| x rest Hs IH Hall]; simpl; [constructor |].
  destruct (keep x); [| assumption].
  constructor; [assumption |].
  rewrite Forall_forall in *. intros y Hy.
  apply filter_In in Hy. now apply Hall.
Qed.

Lemma StronglySorted_map_on {A : Type} (R : A -> A -> Prop) (P : A -> Prop)
    (f : A -> A) (l : list A) :
  (forall a b, P a -> P b -> R a b -> R (f a) (f b)) ->
  Forall P l -> StronglySorted R l -> StronglySorted R (map f l).
Proof.
  intros Hf HP Hs. induction Hs as [| x rest Hs IH Hall]; simpl; [constructor |].
  inversion HP as [| ? ? Px Prest]; subst.
  constructor; [now apply IH |].
  rewrite Forall_forall in *. intros y Hy.
  apply in_map_iff in Hy. destruct Hy as [z [<- Hz]].
  apply Hf; auto.
Qed.

Lemma sorted_filter (keep : Note -> bool) (l : list Note) :
  sorted_by_beat l -> sorted_by_beat (filter keep l).
Proof.
  intros Hs. apply StronglySorted_Sorted, StronglySorted_filter.
  apply Sorted_StronglySorted; [exact beat_le_trans | exact Hs].
Qed.

Lemma note_beat_rebased (start_beat : Q) (n : Note) :
  has_timing n = true ->
  note_beat (rebased start_beat n) = (note_beat n - start_beat)%Q.
Proof.
  unfold has_timing, note_beat, rebased.
  destruct (timing n); [reflexivity | discriminate].
Qed.

Lemma sorted_rebased (start_beat : Q) (l : list Note) :
  forallb has_timing l = true ->
  sorted_by_beat l -> sorted_by_beat (map (rebased start_beat) l).
Proof.
  intros Hwf Hs. apply StronglySorted_Sorted.
  apply (StronglySorted_map_on _ (fun n => has_timing n = true)).
  - intros a b Ha Hb Hab. rewrite !note_beat_rebased by assumption.
    unfold Qminus. apply Qplus_le_compat; [exact Hab | apply Qle_refl].
  - apply Forall_forall. intros n Hn. exact (forallb_In _ _ _ Hwf Hn).
  - apply Sorted_StronglySorted; [exact beat_le_trans | exact Hs].
Qed.

Lemma sorted_extracted (start_beat end_beat : Q) (l : list Note) :
  forallb has_timing l = true ->
  sorted_by_beat l ->
  sorted_by_beat (map (rebased start_beat) (filter (in_window start_beat end_beat) l)).
Proof.
  intros Hwf Hs. apply sorted_rebased.
  - now apply forallb_filter.
  - now apply sorted_filter.
Qed.

(** ** Measure ranges *)

(** Claim C2.  With [first] the pickup length when one is given and the
    regular measure length otherwise, the window of measures
    [start_measure..end_measure] starts at beat 0 when [start_measure] is 1
    and at [first + (start_measure - 2) * beats_per_measure] otherwise, and
    ends at [first] when [end_measure] is 1 and at
    [first + (end_measure - 1) * beats_per_measure] otherwise;
    [extract_measures] extracts exactly that window.  Measures 1-1 of four
    beats give (0, 4), measures 2-2 give (4, 8), and measures 1-4 with a
    pickup of two beats give (0, 14).  The preconditions of the contract
    (measures from 1, start before end, positive lengths) are not needed. *)
Theorem measures_to_beat_range_formula :
  (forall (self : SongEditor) (start_measure end_measure beats_per_measure : Z)
          (pickup_beats : option Z),
     let first := match pickup_beats with Some p => p | None => beats_per_measure end in
     let window :=
       measures_to_beat_range start_measure end_measure beats_per_measure pickup_beats in
     (start_measure = 1 -> fst window = 0) /\
     (start_measure <> 1 ->
      fst window = first + (start_measure - 2) * beats_per_measure) /\
     (end_measure = 1 -> snd window = first) /\
     (end_measure <> 1 ->
      snd window = first + (end_measure - 1) * beats_per_measure) /\
     extract_measures self start_measure end_measure beats_per_measure pickup_beats =
     _extract_beats self (inject_Z (fst window)) (inject_Z (snd window))
       ("小節 " ++ str_int start_measure ++ "-" ++ str_int end_measure)%string) /\
  measures_to_beat_range 1 1 4 None = (0, 4) /\
  measures_to_beat_range 2 2 4 None = (4, 8) /\
  measures_to_beat_range 1 4 4 (Some 2) = (0, 14).
Proof.
  split; [| repeat split].
  intros self s e b p first window.
  unfold extract_measures. fold window.
  subst window first. unfold measures_to_beat_range. simpl.
  repeat split.
  - intros ->. reflexivity.
  - intros Hs. apply Z.eqb_neq in Hs. now rewrite Hs.
  - intros ->. reflexivity.
  - intros He. apply Z.eqb_neq in He. now rewrite He.
Qed.

(** ** Pitch filter *)

(** Claim C9.  [filter_by_pitch] returns, in order and as they were, exactly
    the notes whose pitch is at least [min_pitch] when that bound is given
    and at most [max_pitch] when that bound is given, both bounds inclusive.
    With bounds 48 and 72, of notes at 47, 48, 72 and 73 the ones at 48 and
    72 are kept, beats untouched. *)
Theorem filter_by_pitch_keeps_range (self : SongEditor)
    (min_pitch max_pitch : option Z) :
  forallb has_pitch (notes self) = true ->
  result_notes (filter_by_pitch self min_pitch max_pitch) =
    Some (filter (in_pitch_range min_pitch max_pitch) (notes self)) /\
  (forall n,
     in_pitch_range min_pitch max_pitch n = true <->
     exists p, pitch n = Some p /\
               (forall m, min_pitch = Some m -> m <= p) /\
               (forall m, max_pitch = Some m -> p <= m)) /\
  result_notes (filter_by_pitch (SongEditor_init boundary_pitches) (Some 48) (Some 72)) =
    Some [plain_note 48 1; plain_note 72 2].
Proof.
  intros Hwf. split; [| split; [| reflexivity]].
  - destruct (filter_by_pitch_returns self min_pitch max_pitch Hwf) as [t ->].
    reflexivity.
  - intros n. unfold in_pitch_range. destruct (pitch n) as [p |].
    + rewrite andb_true_iff. split.
      * intros [Hlo Hhi]. exists p. split; [reflexivity |]. split; intros m ->.
        -- now apply Z.leb_le.
        -- now apply Z.leb_le.
      * intros [p' [Hp [Hlo Hhi]]]. injection Hp as <-. split.
        -- destruct min_pitch as [m |]; [| reflexivity].
           apply Z.leb_le. now apply Hlo.
        -- destruct max_pitch as [m |]; [| reflexivity].
           apply Z.leb_le. now apply Hhi.
    + split; [discriminate |]. intros [p [Hp _]]. discriminate.
Qed.

Lemma filter_by_pitch_keeps_range_witness :
  forallb has_pitch (notes (SongEditor_init boundary_pitches)) = true /\
  result_notes (filter_by_pitch (SongEditor_init boundary_pitches) (Some 48) None) =
    Some (filter (in_pitch_range (Some 48) None)
            (notes (SongEditor_init boundary_pitches))).
Proof.
  split; [reflexivity |].
  exact (proj1 (filter_by_pitch_keeps_range (SongEditor_init boundary_pitches)
                  (Some 48) None eq_refl)).
Defined.

(** ** Hand filters *)

Lemma right_hand_note_iff (threshold : Z) (n : Note) :
  right_hand_note threshold true n = true <->
  match hand n with
  | Some h => h = "right"
  | None => exists p, pitch n = Some p /\ threshold <= p
  end.
Proof.
  unfold right_hand_note, marking. destruct (hand n) as [h |].
  - apply String.eqb_eq.
  - destruct (pitch n) as [p |].
    + rewrite Z.leb_le. split.
      * intros H. now exists p.
      * intros [p' [Hp H]]. now injection Hp as <-.
    + split; [discriminate |]. intros [p [Hp _]]. discriminate.
Qed.

Lemma left_hand_note_iff (threshold : Z) (n : Note) :
  left_hand_note threshold true n = true <->
  match hand n with
  | Some h => h = "left"
  | None => exists p, pitch n = Some p /\ p < threshold
  end.
Proof.
  unfold left_hand_note, marking. destruct (hand n) as [h |].
  - apply String.eqb_eq.
  - destruct (pitch n) as [p |].
    + rewrite Z.ltb_lt. split.
      * intros H. now exists p.
      * intros [p' [Hp H]]. now injection Hp as <-.
    + split; [discriminate |]. intros [p [Hp _]]. discriminate.
Qed.

(** Claim C1, as the code has it.  With hand fields in use, the right-hand
    (resp. left-hand) filter keeps a note that carries a hand field iff the
    field is "right" (resp. "left"), and keeps a note that carries none iff
    its pitch is at or above (resp. below) the threshold: the threshold is
    the fallback for each unmarked note. *)
Theorem hand_field_mode_falls_back_per_note (self : SongEditor) (threshold : Z) :
  forallb has_pitch (notes self) = true ->
  result_notes (filter_right_hand self threshold true) =
    Some (filter (right_hand_note threshold true) (notes self)) /\
  result_notes (filter_left_hand self threshold true) =
    Some (filter (left_hand_note threshold true) (notes self)) /\
  (forall n,
     right_hand_note threshold true n = true <->
     match hand n with
     | Some h => h = "right"
     | None => exists p, pitch n = Some p /\ threshold <= p
     end) /\
  (forall n,
     left_hand_note threshold true n = true <->
     match hand n with
     | Some h => h = "left"
     | None => exists p, pitch n = Some p /\ p < threshold
     end).
Proof.
  intros Hwf.
  rewrite filter_right_hand_returns, filter_left_hand_returns by assumption.
  repeat split; try apply right_hand_note_iff; try apply left_hand_note_iff.
Qed.

Lemma hand_field_mode_falls_back_per_note_witness :
  forallb has_pitch (notes (SongEditor_init left_and_unmarked)) = true /\
  result_notes (filter_right_hand (SongEditor_init left_and_unmarked) 60 true) =
    Some (filter (right_hand_note 60 true) (notes (SongEditor_init left_and_unmarked))).
Proof.
  split; [reflexivity |].
  exact (proj1 (hand_field_mode_falls_back_per_note
                  (SongEditor_init left_and_unmarked) 60 eq_refl)).
Defined.

(** Claim C1 fails as stated: of a note marked "left" at pitch 70 and an
    unmarked note at pitch 70, the right-hand filter with threshold 60 and
    hand fields in use returns the unmarked note, not zero notes. *)
Lemma filter_right_hand_keeps_unmarked_note :
  result_notes (filter_right_hand (SongEditor_init left_and_unmarked) 60 true) =
    Some [plain_note 70 1] /\
  result_notes (filter_right_hand (SongEditor_init left_and_unmarked) 60 true) <>
    Some [].
Proof.
  split; [reflexivity | discriminate].
Qed.

(** Claim C10.  When every hand field present is "left" or "right", the two
    hand filters split the notes: the right-hand filter returns the notes
    satisfying a predicate and the left-hand filter those failing it, each in
    source order, so every note is in exactly one of the two outputs and the
    two together are a rearrangement of the input. *)
Theorem hand_filters_partition (self : SongEditor) (threshold : Z)
    (use_hand_field : bool) :
  forallb has_pitch (notes self) = true ->
  forallb hand_is_left_or_right (notes self) = true ->
  exists right left,
    result_notes (filter_right_hand self threshold use_hand_field) = Some right /\
    result_notes (filter_left_hand self threshold use_hand_field) = Some left /\
    right = filter (right_hand_note threshold use_hand_field) (notes self) /\
    left = filter (fun n => negb (right_hand_note threshold use_hand_field n))
             (notes self) /\
    Permutation (notes self) (right ++ left).
Proof.
  intros Hwf Hhands.
  rewrite filter_right_hand_returns, filter_left_hand_returns by assumption.
  simpl. do 2 eexists. split; [reflexivity |]. split; [reflexivity |].
  split; [reflexivity |].
  assert (Hleft : filter (left_hand_note threshold use_hand_field) (notes self) =
                  filter (fun n => negb (right_hand_note threshold use_hand_field n))
                    (notes self)).
  { apply filter_ext_in. intros n Hn.
    pose proof (forallb_In _ _ _ Hwf Hn) as Hp.
    pose proof (forallb_In _ _ _ Hhands Hn) as Hh.
    unfold has_pitch, hand_is_left_or_right, left_hand_note, right_hand_note,
      marking in *.
    destruct (pitch n) as [p |]; [| discriminate].
    destruct use_hand_field; [destruct (hand n) as [h |] |];
      try apply Z.ltb_antisym.
    apply orb_true_iff in Hh. destruct Hh as [Hh | Hh].
    - rewrite Hh. apply String.eqb_eq in Hh. subst h. reflexivity.
    - rewrite Hh. apply String.eqb_eq in Hh. subst h. reflexivity. }
  split; [exact Hleft |].
  rewrite Hleft. clear.
  induction (notes self) as [| n rest IH]; simpl; [constructor |].
  destruct (right_hand_note threshold use_hand_field n); simpl.
  - now constructor.
  - now apply Permutation_cons_app.
Qed.

Lemma hand_filters_partition_witness :
  forallb has_pitch (notes (SongEditor_init left_and_unmarked)) = true /\
  forallb hand_is_left_or_right (notes (SongEditor_init left_and_unmarked)) = true /\
  exists right left,
    result_notes (filter_right_hand (SongEditor_init left_and_unmarked) 60 true)
      = Some right /\
    result_notes (filter_left_hand (SongEditor_init left_and_unmarked) 60 true)
      = Some left /\
    Permutation (notes (SongEditor_init left_and_unmarked)) (right ++ left).
Proof.
  split; [reflexivity |]. split; [reflexivity |].
  destruct (hand_filters_partition (SongEditor_init left_and_unmarked) 60 true
              eq_refl eq_refl) as [r [l [Hr [Hl [_ [_ Hperm]]]]]].
  exists r, l. repeat split; assumption.
Defined.

(** ** Filtering twice *)

(** Claim C7, as the code has it.  Applying a filter to its own output
    selects the same notes and keeps the same bpm as applying it once.  (The
    title is annotated at every application, so the two songs differ in
    their titles.) *)
Theorem filters_select_same_notes_twice (self : SongEditor)
    (min_pitch max_pitch : option Z) (threshold : Z) (use_hand_field : bool) :
  forallb has_pitch (notes self) = true ->
  (exists once twice,
     filter_by_pitch self min_pitch max_pitch = Ok once /\
     filter_by_pitch (SongEditor_init once) min_pitch max_pitch = Ok twice /\
     sd_notes twice = sd_notes once /\ sd_bpm twice = sd_bpm once) /\
  (exists once twice,
     filter_right_hand self threshold use_hand_field = Ok once /\
     filter_right_hand (SongEditor_init once) threshold use_hand_field = Ok twice /\
     sd_notes twice = sd_notes once /\ sd_bpm twice = sd_bpm once) /\
  (exists once twice,
     filter_left_hand self threshold use_hand_field = Ok once /\
     filter_left_hand (SongEditor_init once) threshold use_hand_field = Ok twice /\
     sd_notes twice = sd_notes once /\ sd_bpm twice = sd_bpm once).
Proof.
  intros Hwf. repeat split.
  - destruct (filter_by_pitch_returns self min_pitch max_pitch Hwf) as [t Honce].
    eexists. rewrite Honce.
    destruct (filter_by_pitch_returns
                (SongEditor_init
                   {| sd_title := Some t;
                      sd_bpm := Some (bpm self);
                      sd_notes :=
                        Some (filter (in_pitch_range min_pitch max_pitch) (notes self)) |})
                min_pitch max_pitch) as [t' Htwice].
    { simpl. now apply forallb_filter. }
    eexists. split; [reflexivity |]. rewrite Htwice. simpl.
    split; [reflexivity |]. now rewrite filter_twice.
  - do 2 eexists. rewrite filter_right_hand_returns by assumption.
    split; [reflexivity |].
    rewrite filter_right_hand_returns by (simpl; now apply forallb_filter).
    simpl. split; [reflexivity |]. now rewrite filter_twice.
  - do 2 eexists. rewrite filter_left_hand_returns by assumption.
    split; [reflexivity |].
    rewrite filter_left_hand_returns by (simpl; now apply forallb_filter).
    simpl. split; [reflexivity |]. now rewrite filter_twice.
Qed.

Lemma filters_select_same_notes_twice_witness :
  forallb has_pitch (notes (SongEditor_init left_and_unmarked)) = true /\
  exists once twice,
    filter_right_hand (SongEditor_init left_and_unmarked) 60 true = Ok once /\
    filter_right_hand (SongEditor_init once) 60 true = Ok twice /\
    sd_notes twice = sd_notes once /\ sd_bpm twice = sd_bpm once.
Proof.
  split; [reflexivity |].
  exact (proj1 (proj2 (filters_select_same_notes_twice
                         (SongEditor_init left_and_unmarked) None None 60 true
                         eq_refl))).
Defined.

(** Claim C7 fails as stated: the right-hand filter applied to its own
    output returns a song with another title than the song it was given,
    "T (右手) (右手)" for "T (右手)". *)
Lemma filter_right_hand_twice_retitles :
  exists once twice,
    filter_right_hand (SongEditor_init left_and_unmarked) 60 true = Ok once /\
    filter_right_hand (SongEditor_init once) 60 true = Ok twice /\
    sd_title once = Some "T (右手)" /\
    sd_title twice = Some "T (右手) (右手)" /\
    twice <> once.
Proof.
  do 2 eexists. split; [reflexivity |]. split; [reflexivity |].
  split; [reflexivity |]. split; [reflexivity |]. discriminate.
Qed.

(** ** Beat order *)

(** Claim C8.  Every transformation keeps the notes in ascending beat order:
    when the notes of the song are sorted by beat, so are the notes that
    beat-range extraction, measure extraction, the pitch filter, the
    right-hand filter and the left-hand filter return. *)
Theorem transformations_preserve_beat_order (self : SongEditor) :
  forallb well_formed (notes self) = true ->
  sorted_by_beat (notes self) ->
  (forall start_beat end_beat title_suffix,
     exists out,
       result_notes (_extract_beats self start_beat end_beat title_suffix) = Some out /\
       sorted_by_beat out) /\
  (forall float_str start_beat end_beat,
     exists out,
       result_notes (extract_beats float_str self start_beat end_beat) = Some out /\
       sorted_by_beat out) /\
  (forall start_measure end_measure beats_per_measure pickup_beats,
     exists out,
       result_notes (extract_measures self start_measure end_measure
                       beats_per_measure pickup_beats) = Some out /\
       sorted_by_beat out) /\
  (forall min_pitch max_pitch,
     exists out,
       result_notes (filter_by_pitch self min_pitch max_pitch) = Some out /\
       sorted_by_beat out) /\
  (forall threshold use_hand_field,
     exists out,
       result_notes (filter_right_hand self threshold use_hand_field) = Some out /\
       sorted_by_beat out) /\
  (forall threshold use_hand_field,
     exists out,
       result_notes (filter_left_hand self threshold use_hand_field) = Some out /\
       sorted_by_beat out).
Proof.
  intros Hwf Hsorted.
  pose proof (well_formed_has_pitch _ Hwf) as Hp.
  pose proof (well_formed_has_timing _ Hwf) as Ht.
  repeat split.
  - intros s e suffix. rewrite _extract_beats_returns by assumption.
    eexists. split; [reflexivity |]. now apply sorted_extracted.
  - intros float_str s e. unfold extract_beats.
    rewrite _extract_beats_returns by assumption.
    eexists. split; [reflexivity |]. now apply sorted_extracted.
  - intros s e b p.
    destruct (extract_measures_returns self s e b p Ht) as [t ->].
    eexists. split; [reflexivity |]. now apply sorted_extracted.
  - intros lo hi.
    destruct (filter_by_pitch_returns self lo hi Hp) as [t ->].
    eexists. split; [reflexivity |]. now apply sorted_filter.
  - intros thr use. rewrite filter_right_hand_returns by assumption.
    eexists. split; [reflexivity |]. now apply sorted_filter.
  - intros thr use. rewrite filter_left_hand_returns by assumption.
    eexists. split; [reflexivity |]. now apply sorted_filter.
Qed.

Lemma boundary_pitches_sorted :
  sorted_by_beat (notes (SongEditor_init boundary_pitches)).
Proof.
  unfold sorted_by_beat. simpl.
  repeat (constructor; try (unfold Qle; simpl; lia)).
Defined.

Lemma transformations_preserve_beat_order_witness :
  forallb well_formed (notes (SongEditor_init boundary_pitches)) = true /\
  sorted_by_beat (notes (SongEditor_init boundary_pitches)) /\
  exists out,
    result_notes (extract_measures (SongEditor_init boundary_pitches) 1 1 2 None)
      = Some out /\
    sorted_by_beat out.
Proof.
  split; [reflexivity |]. split; [exact boundary_pitches_sorted |].
  exact (proj1 (proj2 (proj2 (transformations_preserve_beat_order
                                (SongEditor_init boundary_pitches) eq_refl
                                boundary_pitches_sorted))) 1 1 2 None).
Defined.

(** ** Loading *)

(** Claim C5, as the code has it.  Loading returns the song of the file as
    it is, and the editor built from it has title "Untitled" when the file
    gives no title and bpm 120 when the file gives no bpm; its notes are the
    notes of the file, unchanged, so a note has a velocity or a hand exactly
    when the file gives it one. *)
Theorem editor_defaults_title_and_bpm (fs : string -> file_state)
    (file_path : string) (d : SongData) :
  fs file_path = Holds d ->
  load_json fs file_path = Ok d /\
  (sd_title d = None -> title (SongEditor_init d) = "Untitled") /\
  (sd_bpm d = None -> bpm (SongEditor_init d) = 120) /\
  (forall t, sd_title d = Some t -> title (SongEditor_init d) = t) /\
  (forall b, sd_bpm d = Some b -> bpm (SongEditor_init d) = b) /\
  (forall ns, sd_notes d = Some ns -> notes (SongEditor_init d) = ns) /\
  (sd_notes d = None -> notes (SongEditor_init d) = []).
Proof.
  intros Hfile. unfold load_json. rewrite Hfile.
  split; [reflexivity |].
  unfold SongEditor_init; simpl.
  repeat split; intros; match goal with H : _ = _ |- _ => now rewrite H end.
Qed.

Lemma editor_defaults_title_and_bpm_witness :
  only_input untitled_song "in.json" = Holds untitled_song /\
  load_json (only_input untitled_song) "in.json" = Ok untitled_song /\
  title (SongEditor_init untitled_song) = "Untitled" /\
  bpm (SongEditor_init untitled_song) = 120.
Proof.
  destruct (editor_defaults_title_and_bpm (only_input untitled_song) "in.json"
              untitled_song eq_refl) as [Hload [Htitle [Hbpm _]]].
  split; [reflexivity |]. split; [exact Hload |].
  split; [exact (Htitle eq_refl) | exact (Hbpm eq_refl)].
Defined.

(** Claim C5 fails as stated: a note that omits velocity and hand in the
    file has neither in memory, not velocity 80 and hand "right". *)
Lemma loaded_note_has_no_default_velocity_or_hand :
  exists d,
    load_json (only_input untitled_song) "in.json" = Ok d /\
    map velocity (notes (SongEditor_init d)) = [None] /\
    map velocity (notes (SongEditor_init d)) <> [Some 80] /\
    map hand (notes (SongEditor_init d)) = [None] /\
    map hand (notes (SongEditor_init d)) <> [Some "right"].
Proof.
  eexists. split; [reflexivity |].
  repeat split; try reflexivity; discriminate.
Qed.

(** Claim C6, as the code has it.  Loading fails exactly when [open] or
    [json.load] raises: [FileNotFoundError] for a missing file or directory,
    [JSONDecodeError] for text that is not JSON, and the exception of any
    other failed open or read (permission denied, a directory, bytes that
    are not UTF-8).  On each of them the command line exits with status 1
    and a diagnostic and writes nothing.  A file that holds a song is loaded
    as it is, whatever keys its note entries have: a missing "pitch" or
    "timing" never makes loading fail. *)
Theorem load_fails_iff_open_or_parse_fails (float_str : Q -> string)
    (args : Args) (fs : string -> file_state) (writable : string -> bool) :
  (forall e,
     load_json fs (arg_input args) = Raise e <->
     (fs (arg_input args) = Missing /\ e = FileNotFoundError) \/
     (fs (arg_input args) = NoDirectory /\ e = FileNotFoundError) \/
     (fs (arg_input args) = NotJSON /\ e = JSONDecodeError) \/
     (exists class_name,
        fs (arg_input args) = Unreadable class_name /\ e = OtherError class_name)) /\
  (forall d, fs (arg_input args) = Holds d -> load_json fs (arg_input args) = Ok d) /\
  ((exists e, load_json fs (arg_input args) = Raise e) ->
   exit_code (main float_str args fs writable) = 1 /\
   stderr (main float_str args fs writable) <> None /\
   written (main float_str args fs writable) = None).
Proof.
  split; [| split].
  - intros e. unfold load_json.
    destruct (fs (arg_input args)) as [| | d | class_name |]; split;
      try (intros [[H ->] | [[H ->] | [[H ->] | [c [H ->]]]]];
           try discriminate H; try reflexivity;
           injection H as ->; reflexivity).
    + intros H. injection H as <-. now left.
    + intros H. injection H as <-. right. right. now left.
    + discriminate.
    + intros H. injection H as <-. right. right. right. now exists class_name.
    + intros H. injection H as <-. right. now left.
  - intros d Hd. unfold load_json. now rewrite Hd.
  - intros [e He]. unfold main.
    destruct (arg_right_hand args && arg_left_hand args);
      [repeat split; discriminate |].
    destruct ((arg_right_hand args || arg_left_hand args)
              && (truthy_int (arg_min_pitch args) || truthy_int (arg_max_pitch args)));
      [repeat split; discriminate |].
    destruct (contains (arg_measures args) && contains (arg_beat_range args));
      [repeat split; discriminate |].
    unfold transform. rewrite He. simpl.
    destruct e; simpl; repeat split; discriminate.
Qed.

(** Claim C6 fails as stated: a file whose note entry has no "pitch" (or no
    "timing") is loaded without error, and a run with no extraction and no
    filter writes it out and exits with status 0. *)
Lemma load_accepts_note_without_pitch :
  load_json (only_input (song_of [note_without_pitch])) "in.json" =
    Ok (song_of [note_without_pitch]) /\
  load_json (only_input (song_of [note_without_timing])) "in.json" =
    Ok (song_of [note_without_timing]) /\
  main no_float_text default_args (only_input (song_of [note_without_pitch]))
    all_writable =
    {| exit_code := 0;
       stderr := None;
       written := Some ("out.json", song_of [note_without_pitch]) |}.
Proof.
  repeat split.
Qed.

(** ** Reversed ranges *)








(** ** The command line: flags, exit status, what is written *)

(** Any of the three flag conflicts ends the run with status 1 and a
    message before the input is opened: nothing is written, and the outcome
    is the same whatever the files are. *)
Theorem conflicting_flags_rejected_before_reading (float_str : Q -> string)
    (args : Args) (fs : string -> file_state) (writable : string -> bool) :
  arg_right_hand args && arg_left_hand args = true \/
  (arg_right_hand args || arg_left_hand args)
    && (truthy_int (arg_min_pitch args) || truthy_int (arg_max_pitch args)) = true \/
  contains (arg_measures args) && contains (arg_beat_range args) = true ->
  exit_code (main float_str args fs writable) = 1 /\
  stderr (main float_str args fs writable) <> None /\
  written (main float_str args fs writable) = None /\
  main float_str args fs writable =
    main float_str args (fun _ => Missing) (fun _ => false).
Proof.
  intros Hconflict. unfold main.
  destruct (arg_right_hand args && arg_left_hand args);
    [repeat split; discriminate |].
  destruct ((arg_right_hand args || arg_left_hand args)
            && (truthy_int (arg_min_pitch args) || truthy_int (arg_max_pitch args)));
    [repeat split; discriminate |].
  destruct (contains (arg_measures args) && contains (arg_beat_range args));
    [repeat split; discriminate |].
  destruct Hconflict as [H | [H | H]]; discriminate.
Qed.

Lemma conflicting_flags_rejected_before_reading_witness :
  arg_right_hand (with_left_hand (with_right_hand default_args))
    && arg_left_hand (with_left_hand (with_right_hand default_args)) = true /\
  exit_code (main no_float_text (with_left_hand (with_right_hand default_args))
               (only_input boundary_pitches) all_writable) = 1.
Proof.
  split; [reflexivity |].
  exact (proj1 (conflicting_flags_rejected_before_reading no_float_text
                  (with_left_hand (with_right_hand default_args))
                  (only_input boundary_pitches) all_writable
                  (or_introl eq_refl))).
Defined.

Lemma except_outcome (e : exn) (args : Args) (w : option (string * SongData)) :
  exit_code (except e args w) = 1 /\ stderr (except e args w) <> None /\
  written (except e args w) = w.
Proof.
  destruct e; simpl; repeat split; discriminate.
Qed.

(** Once [argparse] has accepted the command line, the run of [main] from
    the flag checks on ends with status 0 or 1; the status is 0 exactly when
    no message goes to standard error, and then the output file holds the
    transformed song, which has a title.  Nothing is ever written to a path
    that cannot be opened for writing. *)
Theorem main_exit_status (float_str : Q -> string) (args : Args)
    (fs : string -> file_state) (writable : string -> bool) :
  (exit_code (main float_str args fs writable) = 0 \/
   exit_code (main float_str args fs writable) = 1) /\
  (exit_code (main float_str args fs writable) = 0 <->
   stderr (main float_str args fs writable) = None) /\
  (exit_code (main float_str args fs writable) = 0 ->
   exists r,
     written (main float_str args fs writable) = Some (arg_output args, r) /\
     transform float_str args fs = Ok r /\ contains (sd_title r) = true) /\
  (written (main float_str args fs writable) <> None ->
   writable (arg_output args) = true).
Proof.
  assert (Hfail : forall o : Outcome,
            exit_code o = 1 -> stderr o <> None ->
            (written o <> None -> writable (arg_output args) = true) ->
            (exit_code o = 0 \/ exit_code o = 1) /\
            (exit_code o = 0 <-> stderr o = None) /\
            (exit_code o = 0 ->
             exists r,
               written o = Some (arg_output args, r) /\
               transform float_str args fs = Ok r /\ contains (sd_title r) = true) /\
            (written o <> None -> writable (arg_output args) = true)).
  { intros o Hc Hs Hwr. rewrite Hc. split; [now right |].
    split; [split; [discriminate | intros H; now elim Hs] |].
    split; [discriminate | exact Hwr]. }
  unfold main.
  destruct (arg_right_hand args && arg_left_hand args);
    [apply Hfail; simpl; [reflexivity | discriminate | intros H; now elim H] |].
  destruct ((arg_right_hand args || arg_left_hand args)
            && (truthy_int (arg_min_pitch args) || truthy_int (arg_max_pitch args)));
    [apply Hfail; simpl; [reflexivity | discriminate | intros H; now elim H] |].
  destruct (contains (arg_measures args) && contains (arg_beat_range args));
    [apply Hfail; simpl; [reflexivity | discriminate | intros H; now elim H] |].
  destruct (transform float_str args fs) as [r | e].
  - unfold save_json. destruct (writable (arg_output args)) eqn:Hw.
    + destruct (sd_title r) as [t |] eqn:Ht.
      * simpl. split; [now left |]. split; [split; reflexivity |].
        split; [| reflexivity]. intros _. exists r. rewrite Ht. now repeat split.
      * apply Hfail; simpl; [reflexivity | discriminate | reflexivity].
    + destruct (fs (arg_output args)); cbv iota beta;
        match goal with
        | |- context [except ?e args None] =>
            destruct (except_outcome e args None) as [Hc [Hs Hwr]]
        end;
        (apply Hfail; [exact Hc | exact Hs |]; rewrite Hwr; intros H; now elim H).
  - destruct (except_outcome e args None) as [Hc [Hs Hwr]].
    apply Hfail; [exact Hc | exact Hs |]. rewrite Hwr. intros H. now elim H.
Qed.



(** ** The tempo override *)

Lemma _extract_beats_bpm (self : SongEditor) (start_beat end_beat : Q)
    (title_suffix : string) (r : SongData) :
  _extract_beats self start_beat end_beat title_suffix = Ok r ->
  sd_bpm r = Some (bpm self).
Proof.
  unfold _extract_beats. destruct (for_each _ _ _); simpl; [| discriminate].
  intros H. injection H as <-. reflexivity.
Qed.

Lemma extract_measures_bpm (self : SongEditor) (s e b : Z) (p : option Z)
    (r : SongData) :
  extract_measures self s e b p = Ok r -> sd_bpm r = Some (bpm self).
Proof.
  unfold extract_measures. destruct (measures_to_beat_range s e b p).
  apply _extract_beats_bpm.
Qed.

Lemma filter_by_pitch_bpm (self : SongEditor) (lo hi : option Z) (r : SongData) :
  filter_by_pitch self lo hi = Ok r -> sd_bpm r = Some (bpm self).
Proof.
  unfold filter_by_pitch. destruct (for_each _ _ _); simpl; [| discriminate].
  intros H. injection H as <-. reflexivity.
Qed.

Lemma filter_right_hand_bpm (self : SongEditor) (thr : Z) (use : bool)
    (r : SongData) :
  filter_right_hand self thr use = Ok r -> sd_bpm r = Some (bpm self).
Proof.
  unfold filter_right_hand. destruct (for_each _ _ _); simpl; [| discriminate].
  intros H. injection H as <-. reflexivity.
Qed.

Lemma filter_left_hand_bpm (self : SongEditor) (thr : Z) (use : bool)
    (r : SongData) :
  filter_left_hand self thr use = Ok r -> sd_bpm r = Some (bpm self).
Proof.
  unfold filter_left_hand. destruct (for_each _ _ _); simpl; [| discriminate].
  intros H. injection H as <-. reflexivity.
Qed.

(** With [--bpm b], the song produced by any run that selects an extraction
    or a filter has bpm [b], whatever the bpm of the input was. *)
Theorem bpm_override_reaches_transformed_song (float_str : Q -> string)
    (args : Args) (fs : string -> file_state) (b : Z) (r : SongData) :
  arg_bpm args = Some b ->
  selects_transformation args = true ->
  transform float_str args fs = Ok r ->
  sd_bpm r = Some b.
Proof.
  intros Hb Hsel. unfold transform, load_json, selects_transformation in *.
  destruct (fs (arg_input args)) as [| | d | class_name |]; simpl; try discriminate.
  rewrite Hb.
  set (editor := set_bpm (SongEditor_init d) b).
  assert (Hed : bpm editor = b) by reflexivity.
  clearbody editor.
  (* after the measure stage *)
  destruct (arg_measures args) as [[s e] |]; simpl.
  - destruct (extract_measures editor s e (arg_beats args) (arg_pickup_beats args))
      as [r1 |] eqn:E1; simpl; [| discriminate].
    apply extract_measures_bpm in E1. rewrite Hed in E1.
    destruct (arg_beat_range args) as [[s2 e2] |]; simpl.
    + unfold extract_beats.
      destruct (_extract_beats (SongEditor_init r1) s2 e2 _) as [r2 |] eqn:E2;
        simpl; [| discriminate].
      apply _extract_beats_bpm in E2. simpl in E2. rewrite E1 in E2. simpl in E2.
      destruct (arg_right_hand args);
        [intros H; apply filter_right_hand_bpm in H; simpl in H;
         now rewrite E2 in H |].
      destruct (arg_left_hand args);
        [intros H; apply filter_left_hand_bpm in H; simpl in H;
         now rewrite E2 in H |].
      destruct (contains (arg_min_pitch args) || contains (arg_max_pitch args));
        [intros H; apply filter_by_pitch_bpm in H; simpl in H;
         now rewrite E2 in H |].
      intros H. injection H as <-. exact E2.
    + destruct (arg_right_hand args);
        [intros H; apply filter_right_hand_bpm in H; simpl in H;
         now rewrite E1 in H |].
      destruct (arg_left_hand args);
        [intros H; apply filter_left_hand_bpm in H; simpl in H;
         now rewrite E1 in H |].
      destruct (contains (arg_min_pitch args) || contains (arg_max_pitch args));
        [intros H; apply filter_by_pitch_bpm in H; simpl in H;
         now rewrite E1 in H |].
      intros H. injection H as <-. exact E1.
  - destruct (arg_beat_range args) as [[s2 e2] |]; simpl.
    + unfold extract_beats.
      destruct (_extract_beats editor s2 e2 _) as [r2 |] eqn:E2;
        simpl; [| discriminate].
      apply _extract_beats_bpm in E2. rewrite Hed in E2.
      destruct (arg_right_hand args);
        [intros H; apply filter_right_hand_bpm in H; simpl in H;
         now rewrite E2 in H |].
      destruct (arg_left_hand args);
        [intros H; apply filter_left_hand_bpm in H; simpl in H;
         now rewrite E2 in H |].
      destruct (contains (arg_min_pitch args) || contains (arg_max_pitch args));
        [intros H; apply filter_by_pitch_bpm in H; simpl in H;
         now rewrite E2 in H |].
      intros H. injection H as <-. exact E2.
    + destruct (arg_right_hand args);
        [intros H; apply filter_right_hand_bpm in H; now rewrite Hed in H |].
      destruct (arg_left_hand args);
        [intros H; apply filter_left_hand_bpm in H; now rewrite Hed in H |].
      simpl in Hsel.
      destruct (contains (arg_min_pitch args) || contains (arg_max_pitch args)) eqn:Ep;
        [intros H; apply filter_by_pitch_bpm in H; now rewrite Hed in H |].
      discriminate Hsel.
Qed.

Lemma bpm_override_reaches_transformed_song_witness :
  arg_bpm (with_right_hand (with_bpm default_args 90)) = Some 90 /\
  selects_transformation (with_right_hand (with_bpm default_args 90)) = true /\
  exists r,
    transform no_float_text (with_right_hand (with_bpm default_args 90))
      (only_input boundary_pitches) = Ok r /\
    sd_bpm r = Some 90.
Proof.
  split; [reflexivity |]. split; [reflexivity |].
  eexists. split; [reflexivity |].
  exact (bpm_override_reaches_transformed_song no_float_text
           (with_right_hand (with_bpm default_args 90))
           (only_input boundary_pitches) 90 _ eq_refl eq_refl eq_refl).
Defined.

(** ** Missing keys *)

(** A loop whose body, at each element, either appends a selection or
    raises [e], raises [e] as soon as one element does. *)
Lemma for_each_raises {A B : Type} (body : A -> list B -> result (list B))
    (sel : A -> list B) (e : exn) (l : list A) :
  (forall x, In x l ->
     (forall acc, body x acc = Ok (acc ++ sel x)) \/
     (forall acc, body x acc = Raise e)) ->
  (exists x, In x l /\ forall acc, body x acc = Raise e) ->
  forall acc, for_each body l acc = Raise e.
Proof.
  induction l as [| x rest IH]; intros Hbody [y [Hy Hraise]] acc.
  - destruct Hy.
  - simpl. destruct (Hbody x (or_introl eq_refl)) as [Hok | Herr].
    + rewrite Hok. simpl. apply IH.
      * intros z Hz. apply Hbody. now right.
      * destruct Hy as [-> | Hy].
        -- specialize (Hok []). rewrite Hraise in Hok. discriminate.
        -- now exists y.
    + now rewrite Herr.
Qed.

Lemma forallb_false_exists {A : Type} (p : A -> bool) (l : list A) :
  forallb p l = false -> exists x, In x l /\ p x = false.
Proof.
  induction l as [| x rest IH]; simpl; [discriminate |].
  destruct (p x) eqn:E; simpl.
  - intros H. destruct (IH H) as [y [Hy Hp]]. exists y. split; [now right | exact Hp].
  - intros _. exists x. split; [now left | exact E].
Qed.

(** A note without "pitch" makes the pitch filter raise [KeyError] on
    "pitch", whatever the bounds, and a note without "timing" makes the
    extraction raise [KeyError] on "timing", whatever the window.  The hand
    filters read the pitch only of the notes whose marking they do not use:
    they return the selected notes when every such note has a pitch, and
    raise [KeyError] on "pitch" otherwise. *)
Theorem missing_key_raises (self : SongEditor) :
  (forall min_pitch max_pitch,
     forallb has_pitch (notes self) = false ->
     filter_by_pitch self min_pitch max_pitch = Raise (KeyError "pitch")) /\
  (forall start_beat end_beat title_suffix,
     forallb has_timing (notes self) = false ->
     _extract_beats self start_beat end_beat title_suffix = Raise (KeyError "timing")) /\
  (forall threshold use_hand_field,
     forallb (readable_by_hand_filter use_hand_field) (notes self) = false ->
     filter_right_hand self threshold use_hand_field = Raise (KeyError "pitch") /\
     filter_left_hand self threshold use_hand_field = Raise (KeyError "pitch")) /\
  (forall threshold use_hand_field,
     forallb (readable_by_hand_filter use_hand_field) (notes self) = true ->
     result_notes (filter_right_hand self threshold use_hand_field) =
       Some (filter (right_hand_note threshold use_hand_field) (notes self)) /\
     result_notes (filter_left_hand self threshold use_hand_field) =
       Some (filter (left_hand_note threshold use_hand_field) (notes self))).
Proof.
  split; [| split; [| split]].
  - intros lo hi Hbad. apply forallb_false_exists in Hbad.
    unfold filter_by_pitch.
    rewrite (for_each_raises _
               (fun n => if in_pitch_range lo hi n then [n] else [])
               (KeyError "pitch")); [reflexivity | |].
    + intros n _. unfold in_pitch_range, deepcopy.
      destruct (pitch n) as [p |]; [left | right; reflexivity].
      intros acc. simpl.
      destruct lo as [lo |], hi as [hi |];
        rewrite ?Z.gtb_ltb, ?(Z.ltb_antisym lo p), ?(Z.ltb_antisym p);
        repeat match goal with
               | |- context [?a <=? ?b] => destruct (a <=? b)
               end; simpl; now rewrite ?app_nil_r.
    + destruct Hbad as [n [Hn Hp]]. exists n. split; [exact Hn |].
      intros acc. unfold has_pitch in Hp.
      destruct (pitch n); [discriminate | reflexivity].
  - intros s e sfx Hbad. apply forallb_false_exists in Hbad.
    unfold _extract_beats.
    rewrite (for_each_raises _
               (fun n => if in_window s e n then [rebased s n] else [])
               (KeyError "timing")); [reflexivity | |].
    + intros n _. unfold in_window, rebased, set_timing_beat, deepcopy.
      destruct (timing n) as [t |]; [left | right; reflexivity].
      intros acc. simpl.
      destruct (Qle_bool s (beat t) && Qlt_bool (beat t) e);
        [reflexivity | now rewrite app_nil_r].
    + destruct Hbad as [n [Hn Ht]]. exists n. split; [exact Hn |].
      intros acc. unfold has_timing in Ht.
      destruct (timing n); [discriminate | reflexivity].
  - intros thr use Hbad. apply forallb_false_exists in Hbad.
    destruct Hbad as [n [Hn Hr]].
    unfold readable_by_hand_filter, marking, has_pitch in Hr.
    apply orb_false_iff in Hr. destruct Hr as [Hm Hp].
    split.
    + unfold filter_right_hand.
      rewrite (for_each_raises _
                 (fun n => if right_hand_note thr use n then [n] else [])
                 (KeyError "pitch")); [reflexivity | |].
      * intros x _. unfold right_hand_note, marking, deepcopy.
        destruct use, (hand x) as [h |], (pitch x) as [p |]; simpl;
          rewrite ?Z.geb_leb;
          try (right; reflexivity);
          left; intros acc;
          repeat match goal with
                 | |- context [if ?c then _ else _] => destruct c
                 end; simpl; now rewrite ?app_nil_r.
      * exists n. split; [exact Hn |]. intros acc.
        destruct use, (hand n), (pitch n); simpl in *; try discriminate; reflexivity.
    + unfold filter_left_hand.
      rewrite (for_each_raises _
                 (fun n => if left_hand_note thr use n then [n] else [])
                 (KeyError "pitch")); [reflexivity | |].
      * intros x _. unfold left_hand_note, marking, deepcopy.
        destruct use, (hand x) as [h |], (pitch x) as [p |]; simpl;
          try (right; reflexivity);
          left; intros acc;
          repeat match goal with
                 | |- context [if ?c then _ else _] => destruct c
                 end; simpl; now rewrite ?app_nil_r.
      * exists n. split; [exact Hn |]. intros acc.
        destruct use, (hand n), (pitch n); simpl in *; try discriminate; reflexivity.
  - intros thr use Hok. split.
    + unfold filter_right_hand.
      rewrite (for_each_select _
                 (fun n => if right_hand_note thr use n then [n] else [])).
      * simpl. now rewrite flat_map_keep.
      * intros n Hn acc. pose proof (forallb_In _ _ _ Hok Hn) as Hr.
        unfold readable_by_hand_filter, right_hand_note, marking, has_pitch,
          deepcopy in *.
        destruct use, (hand n) as [h |], (pitch n) as [p |]; simpl in *;
          try discriminate; rewrite ?Z.geb_leb;
          repeat match goal with
                 | |- context [if ?c then _ else _] => destruct c
                 end; simpl; now rewrite ?app_nil_r.
    + unfold filter_left_hand.
      rewrite (for_each_select _
                 (fun n => if left_hand_note thr use n then [n] else [])).
      * simpl. now rewrite flat_map_keep.
      * intros n Hn acc. pose proof (forallb_In _ _ _ Hok Hn) as Hr.
        unfold readable_by_hand_filter, left_hand_note, marking, has_pitch,
          deepcopy in *.
        destruct use, (hand n) as [h |], (pitch n) as [p |]; simpl in *;
          try discriminate;
          repeat match goal with
                 | |- context [if ?c then _ else _] => destruct c
                 end; simpl; now rewrite ?app_nil_r.
Qed.

(** ** Extraction and filters together *)

Lemma filter_map_through {A B : Type} (p : B -> bool) (f : A -> B) (l : list A) :
  filter p (map f l) = map f (filter (fun x => p (f x)) l).
Proof.
  induction l as [| x rest IH]; simpl; [reflexivity |].
  rewrite IH. now destruct (p (f x)).
Qed.

Lemma filter_swap {A : Type} (p q : A -> bool) (l : list A) :
  filter p (filter q l) = filter q (filter p l).
Proof.
  induction l as [| x rest IH]; simpl; [reflexivity |].
  destruct (p x) eqn:Ep, (q x) eqn:Eq; simpl; rewrite ?Ep, ?Eq, IH; reflexivity.
Qed.

Lemma rebased_keeps_pitch_and_hand (start_beat : Q) (n : Note) :
  pitch (rebased start_beat n) = pitch n /\ hand (rebased start_beat n) = hand n.
Proof.
  unfold rebased. destruct (timing n); split; reflexivity.
Qed.

Lemma forallb_map {A B : Type} (p : B -> bool) (f : A -> B) (l : list A) :
  forallb p (map f l) = forallb (fun x => p (f x)) l.
Proof.
  induction l as [| x rest IH]; simpl; [reflexivity | now rewrite IH].
Qed.

Lemma extracted_have_pitch (start_beat end_beat : Q) (l : list Note) :
  forallb has_pitch l = true ->
  forallb has_pitch (map (rebased start_beat) (filter (in_window start_beat end_beat) l))
  = true.
Proof.
  intros H. rewrite forallb_map. apply forallb_forall.
  intros n Hn. apply filter_In in Hn. destruct Hn as [Hn _].
  unfold has_pitch. rewrite (proj1 (rebased_keeps_pitch_and_hand start_beat n)).
  exact (forallb_In _ _ _ H Hn).
Qed.

(** A selection that looks only at pitch and hand gives the same notes
    before and after extraction. *)
Lemma select_then_extract (keep : Note -> bool) (start_beat end_beat : Q)
    (l : list Note) :
  (forall n, keep (rebased start_beat n) = keep n) ->
  filter keep (map (rebased start_beat) (filter (in_window start_beat end_beat) l)) =
  map (rebased start_beat) (filter (in_window start_beat end_beat) (filter keep l)).
Proof.
  intros Hkeep. rewrite filter_map_through.
  rewrite (filter_ext _ keep) by exact Hkeep.
  now rewrite filter_swap.
Qed.

(** Extraction and filtering commute on the notes: filtering the extracted
    song (the order of the command line) returns the same notes as
    extracting from the filtered song, for the pitch filter and for both
    hand filters. *)
Theorem filters_commute_with_extraction (self : SongEditor)
    (start_beat end_beat : Q) (title_suffix : string)
    (min_pitch max_pitch : option Z) (threshold : Z) (use_hand_field : bool) :
  forallb well_formed (notes self) = true ->
  exists extracted by_pitch right left,
    _extract_beats self start_beat end_beat title_suffix = Ok extracted /\
    filter_by_pitch self min_pitch max_pitch = Ok by_pitch /\
    filter_right_hand self threshold use_hand_field = Ok right /\
    filter_left_hand self threshold use_hand_field = Ok left /\
    (exists ns,
       result_notes (filter_by_pitch (SongEditor_init extracted) min_pitch max_pitch)
         = Some ns /\
       result_notes (_extract_beats (SongEditor_init by_pitch) start_beat end_beat
                       title_suffix) = Some ns) /\
    (exists ns,
       result_notes (filter_right_hand (SongEditor_init extracted) threshold
                       use_hand_field) = Some ns /\
       result_notes (_extract_beats (SongEditor_init right) start_beat end_beat
                       title_suffix) = Some ns) /\
    (exists ns,
       result_notes (filter_left_hand (SongEditor_init extracted) threshold
                       use_hand_field) = Some ns /\
       result_notes (_extract_beats (SongEditor_init left) start_beat end_beat
                       title_suffix) = Some ns).
Proof.
  intros Hwf.
  pose proof (well_formed_has_pitch _ Hwf) as Hp.
  pose proof (well_formed_has_timing _ Hwf) as Ht.
  destruct (filter_by_pitch_returns self min_pitch max_pitch Hp) as [t Hbp].
  do 4 eexists.
  split; [now apply _extract_beats_returns |].
  split; [exact Hbp |].
  split; [now apply filter_right_hand_returns |].
  split; [now apply filter_left_hand_returns |].
  split; [| split].
  - destruct (filter_by_pitch_returns
                (SongEditor_init
                   {| sd_title := Some (title self ++ " (" ++ title_suffix ++ ")")%string;
                      sd_bpm := Some (bpm self);
                      sd_notes :=
                        Some (map (rebased start_beat)
                                (filter (in_window start_beat end_beat) (notes self))) |})
                min_pitch max_pitch) as [t' ->].
    { simpl. now apply extracted_have_pitch. }
    rewrite _extract_beats_returns by (simpl; now apply forallb_filter).
    simpl. eexists. split; [| reflexivity].
    f_equal. apply select_then_extract.
    intros n. unfold in_pitch_range.
    now rewrite (proj1 (rebased_keeps_pitch_and_hand start_beat n)).
  - rewrite filter_right_hand_returns by (simpl; now apply extracted_have_pitch).
    rewrite _extract_beats_returns by (simpl; now apply forallb_filter).
    simpl. eexists. split; [| reflexivity].
    f_equal. apply select_then_extract.
    intros n. unfold right_hand_note, marking.
    destruct (rebased_keeps_pitch_and_hand start_beat n) as [-> ->]. reflexivity.
  - rewrite filter_left_hand_returns by (simpl; now apply extracted_have_pitch).
    rewrite _extract_beats_returns by (simpl; now apply forallb_filter).
    simpl. eexists. split; [| reflexivity].
    f_equal. apply select_then_extract.
    intros n. unfold left_hand_note, marking.
    destruct (rebased_keeps_pitch_and_hand start_beat n) as [-> ->]. reflexivity.
Qed.

Lemma filters_commute_with_extraction_witness :
  forallb well_formed (notes (SongEditor_init boundary_pitches)) = true /\
  exists extracted right ns,
    _extract_beats (SongEditor_init boundary_pitches) 1 3 "w" = Ok extracted /\
    filter_right_hand (SongEditor_init boundary_pitches) 60 true = Ok right /\
    result_notes (filter_right_hand (SongEditor_init extracted) 60 true) = Some ns /\
    result_notes (_extract_beats (SongEditor_init right) 1 3 "w") = Some ns.
Proof.
  split; [reflexivity |].
  destruct (filters_commute_with_extraction (SongEditor_init boundary_pitches)
              1 3 "w" None None 60 true eq_refl)
    as [ex [bp [r [l [Hex [_ [Hr [_ [_ [[ns [H1 H2]] _]]]]]]]]]].
  exists ex, r, ns. repeat split; assumption.
Defined.

(** ** Measure windows *)

Lemma in_window_split (a m b : Q) (n : Note) :
  (a <= m)%Q -> (m <= b)%Q ->
  in_window a b n = in_window a m n || in_window m b n /\
  in_window a m n && in_window m b n = false.
Proof.
  intros Ham Hmb. split.
  - apply eq_true_iff_eq. rewrite orb_true_iff, !in_window_iff. split.
    + intros [t [Ht [Hle Hlt]]].
      destruct (Qlt_le_dec (beat t) m) as [Hlow | Hhigh].
      * left. exists t. repeat split; assumption.
      * right. exists t. repeat split; assumption.
    + intros [[t [Ht [Hle Hlt]]] | [t [Ht [Hle Hlt]]]]; exists t; repeat split;
        try assumption.
      * exact (Qlt_le_trans _ _ _ Hlt Hmb).
      * exact (Qle_trans _ _ _ Ham Hle).
  - destruct (in_window a m n) eqn:E1, (in_window m b n) eqn:E2; try reflexivity.
    apply in_window_iff in E1, E2.
    destruct E1 as [t [Ht [_ Hlt]]], E2 as [t' [Ht' [Hle _]]].
    rewrite Ht in Ht'. injection Ht' as <-.
    exfalso. exact (Qlt_not_le _ _ Hlt Hle).
Qed.

(** Measure ranges tile the beat line: the window of measures [s..m] ends
    on the beat where the window of measures [m+1..e] starts, and a note is
    selected for measures [s..e] exactly when it is selected for [s..m] or
    for [m+1..e], never for both. *)
Theorem measure_ranges_tile (s m e beats_per_measure : Z) (pickup_beats : option Z)
    (n : Note) :
  1 <= s <= m -> m < e -> 0 < beats_per_measure ->
  (forall q, pickup_beats = Some q -> 0 < q) ->
  snd (measures_to_beat_range s m beats_per_measure pickup_beats) =
    fst (measures_to_beat_range (m + 1) e beats_per_measure pickup_beats) /\
  in_measures s e beats_per_measure pickup_beats n =
    in_measures s m beats_per_measure pickup_beats n
    || in_measures (m + 1) e beats_per_measure pickup_beats n /\
  in_measures s m beats_per_measure pickup_beats n
    && in_measures (m + 1) e beats_per_measure pickup_beats n = false.
Proof.
  intros Hsm Hme Hb Hp.
  assert (Hfirst : 0 < match pickup_beats with
                       | Some q => q
                       | None => beats_per_measure
                       end).
  { destruct pickup_beats as [q |]; [now apply Hp | exact Hb]. }
  unfold in_measures, measures_to_beat_range in *. simpl.
  set (first := match pickup_beats with
                | Some q => q
                | None => beats_per_measure
                end) in *.
  assert (Hm1 : (m + 1 =? 1) = false) by (apply Z.eqb_neq; lia).
  assert (He1 : (e =? 1) = false) by (apply Z.eqb_neq; lia).
  rewrite Hm1, He1.
  assert (Hmid : (if m =? 1 then first else first + (m - 1) * beats_per_measure) =
                 first + (m + 1 - 2) * beats_per_measure).
  { destruct (m =? 1) eqn:Em; [apply Z.eqb_eq in Em; subst m; lia |].
    f_equal. f_equal. lia. }
  split; [exact Hmid |].
  rewrite Hmid.
  apply in_window_split; rewrite <- Zle_Qle.
  - destruct (s =? 1) eqn:Es; nia.
  - nia.
Qed.

Lemma measure_ranges_tile_witness :
  snd (measures_to_beat_range 1 2 4 (Some 2)) =
    fst (measures_to_beat_range (2 + 1) 4 4 (Some 2)) /\
  in_measures 1 4 4 (Some 2) (plain_note 60 7) =
    in_measures 1 2 4 (Some 2) (plain_note 60 7)
    || in_measures (2 + 1) 4 4 (Some 2) (plain_note 60 7).
Proof.
  assert (Hsm : 1 <= 1 <= 2) by lia.
  assert (Hme : 2 < 4) by lia.
  assert (Hb : 0 < 4) by lia.
  assert (Hp : forall q : Z, Some 2 = Some q -> 0 < q).
  { intros q Hq. injection Hq as <-. lia. }
  destruct (measure_ranges_tile 1 2 4 4 (Some 2) (plain_note 60 7) Hsm Hme Hb Hp)
    as [H1 [H2 _]].
  split; assumption.
Defined.

(** A measure range with [1 <= s <= e] and positive measure lengths gives a
    window that starts at a beat [>= 0] and is not empty; its length is the
    number of beats of its measures: the first measure plus [e - 1] regular
    ones when [s] is 1, and [e - s + 1] regular ones otherwise. *)
Theorem measure_window_length (s e beats_per_measure : Z) (pickup_beats : option Z) :
  1 <= s <= e -> 0 < beats_per_measure ->
  (forall q, pickup_beats = Some q -> 0 < q) ->
  let first := match pickup_beats with Some q => q | None => beats_per_measure end in
  let window := measures_to_beat_range s e beats_per_measure pickup_beats in
  0 <= fst window /\ fst window < snd window /\
  (s = 1 -> snd window - fst window = first + (e - 1) * beats_per_measure) /\
  (s <> 1 -> snd window - fst window = (e - s + 1) * beats_per_measure).
Proof.
  intros Hse Hb Hp first window.
  assert (Hfirst : 0 < first).
  { subst first. destruct pickup_beats as [q |]; [now apply Hp | exact Hb]. }
  subst window. unfold measures_to_beat_range. fold first. simpl.
  destruct (Z.eqb_spec s 1) as [Es | Es], (Z.eqb_spec e 1) as [Ee | Ee];
    repeat split; intros; nia.
Qed.

Lemma measure_window_length_witness :
  fst (measures_to_beat_range 3 8 3 None) < snd (measures_to_beat_range 3 8 3 None) /\
  snd (measures_to_beat_range 3 8 3 None) - fst (measures_to_beat_range 3 8 3 None) =
    (8 - 3 + 1) * 3.
Proof.
  assert (Hse : 1 <= 3 <= 8) by lia.
  assert (Hb : 0 < 3) by lia.
  assert (Hp : forall q : Z, @None Z = Some q -> 0 < q) by discriminate.
  destruct (measure_window_length 3 8 3 None Hse Hb Hp) as [_ [Hlt [_ Hlen]]].
  split; [exact Hlt | apply Hlen; lia].
Defined.

(** ** A pitch bound of zero beside a hand filter *)



(** ** The converter: sorting *)

Lemma insert_by_beat_perm (x : Note) (l : list Note) :
  Permutation (x :: l) (insert_by_beat x l).
Proof.
  induction l as [| y rest IH]; simpl; [reflexivity |].
  destruct (Qle_bool (note_beat x) (note_beat y)); [reflexivity |].
  rewrite perm_swap. now apply perm_skip.
Qed.

Lemma sort_by_beat_perm (l : list Note) : Permutation l (sort_by_beat l).
Proof.
  induction l as [| x rest IH]; simpl; [constructor |].
  rewrite <- insert_by_beat_perm. now apply perm_skip.
Qed.

Lemma insert_by_beat_sorted (x : Note) (l : list Note) :
  sorted_by_beat l -> sorted_by_beat (insert_by_beat x l).
Proof.
  unfold sorted_by_beat.
  induction l as [| y rest IH]; intros Hs; simpl.
  - repeat constructor.
  - destruct (Qle_bool (note_beat x) (note_beat y)) eqn:E.
    + constructor; [exact Hs |]. constructor. now apply Qle_bool_iff.
    + assert (Hyx : (note_beat y <= note_beat x)%Q).
      { apply Qlt_le_weak, Qnot_le_lt. intros Hc.
        apply Qle_bool_iff in Hc. congruence. }
      inversion Hs as [| ? ? Hrest Hhd]; subst.
      constructor; [now apply IH |].
      destruct rest as [| z rest']; simpl.
      * now constructor.
      * destruct (Qle_bool (note_beat x) (note_beat z)).
        -- now constructor.
        -- inversion Hhd; subst. now constructor.
Qed.

Lemma sort_by_beat_sorted (l : list Note) : sorted_by_beat (sort_by_beat l).
Proof.
  induction l as [| x rest IH]; simpl.
  - constructor.
  - now apply insert_by_beat_sorted.
Qed.

Lemma insert_by_beat_on_beat (k : Q) (x : Note) (l : list Note) :
  filter (on_beat k) (insert_by_beat x l) = filter (on_beat k) (x :: l).
Proof.
  induction l as [| y rest IH]; [reflexivity |].
  cbn [insert_by_beat].
  destruct (Qle_bool (note_beat x) (note_beat y)) eqn:E; [reflexivity |].
  cbn [filter] in *. rewrite IH.
  destruct (on_beat k x) eqn:Ex, (on_beat k y) eqn:Ey; try reflexivity.
  exfalso. unfold on_beat in Ex, Ey.
  apply Qeq_bool_iff in Ex, Ey.
  assert (Hle : (note_beat x <= note_beat y)%Q).
  { rewrite Ex, Ey. apply Qle_refl. }
  apply Qle_bool_iff in Hle. congruence.
Qed.

Lemma parts_notes_built (part_idx : nat) (ps : list (list Element)) (n : Note) :
  In n (parts_notes part_idx ps) ->
  exists midi offset ql v h, n = note_dict midi offset ql v h.
Proof.
  revert part_idx. induction ps as [| part rest IH]; intros i; simpl; [tauto |].
  rewrite in_app_iff, in_flat_map. intros [[el [_ Hn]] | Hn].
  - destruct el as [midi off ql v | pitches off ql v |]; simpl in Hn.
    + destruct Hn as [<- | []]. now repeat eexists.
    + apply in_map_iff in Hn. destruct Hn as [midi [<- _]]. now repeat eexists.
    + destruct Hn.
  - now apply (IH (S i)).
Qed.

Lemma note_dict_fields (midi : Z) (offset ql : Q) (v : option Z) (h : string) :
  well_formed (note_dict midi offset ql v h) = true /\
  hand_is_left_or_right (note_dict midi offset ql v h) = true /\
  velocity (note_dict midi offset ql v h) <> Some 80 /\
  (hand (note_dict midi offset ql v h) = None \/
   hand (note_dict midi offset ql v h) = Some "left").
Proof.
  unfold note_dict, well_formed, hand_is_left_or_right. simpl.
  split; [reflexivity |]. split; [| split].
  - destruct (String.eqb h "left") eqn:E; [| reflexivity]. now rewrite E.
  - destruct v as [v |]; [| discriminate].
    destruct (v =? 80) eqn:E; simpl; [discriminate |].
    intros H. injection H as ->. discriminate.
  - destruct (String.eqb h "left") eqn:E; [right | now left].
    apply String.eqb_eq in E. now subst h.
Qed.

(** ** The converter: its output *)

(** The song the converter returns meets what the editor's transformations
    ask of their input: every note has a pitch and a timing, every hand
    field is "left" or "right", and the notes are in ascending beat order. *)
Theorem converter_output_is_well_formed_and_sorted (score : Score) :
  forallb well_formed (notes (SongEditor_init (musicxml_to_json score))) = true /\
  forallb hand_is_left_or_right (notes (SongEditor_init (musicxml_to_json score)))
  = true /\
  sorted_by_beat (notes (SongEditor_init (musicxml_to_json score))).
Proof.
  simpl. split; [| split].
  - apply forallb_forall. intros n Hn.
    apply (Permutation_in _ (Permutation_sym (sort_by_beat_perm _))) in Hn.
    apply parts_notes_built in Hn. destruct Hn as [m [o [q [v [h ->]]]]].
    apply note_dict_fields.
  - apply forallb_forall. intros n Hn.
    apply (Permutation_in _ (Permutation_sym (sort_by_beat_perm _))) in Hn.
    apply parts_notes_built in Hn. destruct Hn as [m [o [q [v [h ->]]]]].
    apply note_dict_fields.
  - apply sort_by_beat_sorted.
Qed.

Lemma length_parts_notes (part_idx : nat) (ps : list (list Element)) :
  List.length (parts_notes part_idx ps) =
  list_sum (map (fun part => list_sum (map element_size part)) ps).
Proof.
  revert part_idx. induction ps as [| part rest IH]; intros i; simpl; [reflexivity |].
  rewrite List.length_app, (IH (S i)). f_equal.
  induction part as [| el els IHp]; simpl; [reflexivity |].
  rewrite List.length_app, IHp. f_equal.
  destruct el; simpl; [reflexivity | apply List.length_map | reflexivity].
Qed.

(** The converter returns one note per sounding pitch, one for each note
    and one for each pitch of each chord of every part, and nothing else:
    its notes are a rearrangement of the notes collected part by part. *)
Theorem converter_keeps_every_pitch (score : Score) :
  Permutation (parts_notes 0 (parts score))
    (notes (SongEditor_init (musicxml_to_json score))) /\
  List.length (notes (SongEditor_init (musicxml_to_json score))) =
    list_sum (map (fun part => list_sum (map element_size part)) (parts score)).
Proof.
  simpl. split; [apply sort_by_beat_perm |].
  rewrite <- (Permutation_length (sort_by_beat_perm _)).
  apply length_parts_notes.
Qed.

(** The sort of the converter is stable: the notes that start on one beat
    come out in the order they were collected, the first part before the
    others and the pitches of a chord in the chord's order. *)
Theorem converter_sort_is_stable (score : Score) (k : Q) :
  filter (on_beat k) (notes (SongEditor_init (musicxml_to_json score))) =
  filter (on_beat k) (parts_notes 0 (parts score)).
Proof.
  simpl. induction (parts_notes 0 (parts score)) as [| x rest IH]; [reflexivity |].
  cbn [sort_by_beat fold_right]. fold (sort_by_beat rest).
  rewrite insert_by_beat_on_beat. cbn [filter]. now rewrite IH.
Qed.

(** ** The converter: hands *)

Lemma first_part_unmarked (part : list Element) (n : Note) :
  In n (flat_map (element_notes "right") part) -> hand n = None.
Proof.
  rewrite in_flat_map. intros [el [_ Hn]].
  destruct el as [midi off ql v | pitches off ql v |]; simpl in Hn.
  - destruct Hn as [<- | []]. reflexivity.
  - apply in_map_iff in Hn. destruct Hn as [midi [<- _]]. reflexivity.
  - destruct Hn.
Qed.

Lemma later_parts_marked_left (part_idx : nat) (ps : list (list Element)) (n : Note) :
  In n (parts_notes (S part_idx) ps) -> hand n = Some "left".
Proof.
  revert part_idx. induction ps as [| part rest IH]; intros i; simpl; [tauto |].
  rewrite in_app_iff, in_flat_map. intros [[el [_ Hn]] | Hn].
  - destruct el as [midi off ql v | pitches off ql v |]; simpl in Hn.
    + destruct Hn as [<- | []]. reflexivity.
    + apply in_map_iff in Hn. destruct Hn as [midi [<- _]]. reflexivity.
    + destruct Hn.
  - now apply (IH (S i)).
Qed.

Lemma converter_notes_by_part (score : Score) (first : list Element)
    (others : list (list Element)) (n : Note) :
  parts score = first :: others ->
  In n (notes (SongEditor_init (musicxml_to_json score))) <->
  In n (flat_map (element_notes "right") first) \/ In n (parts_notes 1 others).
Proof.
  intros Hparts. simpl. rewrite Hparts. simpl. rewrite <- in_app_iff. split.
  - apply Permutation_in. apply Permutation_sym, sort_by_beat_perm.
  - apply Permutation_in. apply sort_by_beat_perm.
Qed.

(** The converter tells the hands by the part: a note of the first part
    carries no "hand" key and a note of any later part carries "left";
    "right" is never written.  A "velocity" key is never 80. *)
Theorem converter_marks_hands_by_part (score : Score) (first : list Element)
    (others : list (list Element)) :
  parts score = first :: others ->
  forall n,
    (In n (notes (SongEditor_init (musicxml_to_json score))) <->
     In n (flat_map (element_notes "right") first) \/ In n (parts_notes 1 others)) /\
    (In n (flat_map (element_notes "right") first) -> hand n = None) /\
    (In n (parts_notes 1 others) -> hand n = Some "left") /\
    (In n (notes (SongEditor_init (musicxml_to_json score))) ->
     hand n <> Some "right" /\ velocity n <> Some 80).
Proof.
  intros Hparts n.
  split; [now apply converter_notes_by_part |].
  split; [apply first_part_unmarked |].
  split; [apply later_parts_marked_left |].
  intros Hn. simpl in Hn.
  apply (Permutation_in _ (Permutation_sym (sort_by_beat_perm _))) in Hn.
  apply parts_notes_built in Hn. destruct Hn as [m [o [q [v [h ->]]]]].
  destruct (note_dict_fields m o q v h) as [_ [_ [Hv [Hh | Hh]]]];
    split; try exact Hv; rewrite Hh; discriminate.
Qed.

Lemma converter_marks_hands_by_part_witness :
  parts two_staves =
    [ElNote 72 1 1 (Some 80); ElNote 55 0 1 (Some 64)] :: [[ElChord [36; 43] 0 2 None]] /\
  (In (note_dict 36 0 2 None "left")
     (parts_notes 1 [[ElChord [36; 43] 0 2 None]]) ->
   hand (note_dict 36 0 2 None "left") = Some "left").
Proof.
  split; [reflexivity |].
  exact (proj1 (proj2 (proj2 (converter_marks_hands_by_part two_staves _ _ eq_refl
                                (note_dict 36 0 2 None "left"))))).
Defined.

(** Editing a converted song with the hand filters in their default mode:
    a note of the first part, which the converter leaves unmarked, goes to
    the right-hand song only when its pitch is at or above the threshold and
    to the left-hand song when it is below; a note of a later part always
    goes to the left-hand song and never to the right-hand one. *)
Theorem converted_first_part_is_split_by_threshold (score : Score)
    (first : list Element) (others : list (list Element)) (threshold : Z) :
  parts score = first :: others ->
  exists right left,
    result_notes (filter_right_hand (SongEditor_init (musicxml_to_json score))
                    threshold true) = Some right /\
    result_notes (filter_left_hand (SongEditor_init (musicxml_to_json score))
                    threshold true) = Some left /\
    (forall n p,
       In n (flat_map (element_notes "right") first) -> pitch n = Some p ->
       (In n right <-> threshold <= p) /\ (In n left <-> p < threshold)) /\
    (forall n, In n (parts_notes 1 others) -> In n left /\ ~ In n right).
Proof.
  intros Hparts.
  destruct (converter_output_is_well_formed_and_sorted score) as [Hwf _].
  apply well_formed_has_pitch in Hwf.
  rewrite filter_right_hand_returns, filter_left_hand_returns by exact Hwf.
  cbn [result_notes sd_notes].
  do 2 eexists. split; [reflexivity |]. split; [reflexivity |]. split.
  - intros n p Hn Hp.
    pose proof (first_part_unmarked _ _ Hn) as Hh.
    assert (Hin : In n (notes (SongEditor_init (musicxml_to_json score)))).
    { apply (converter_notes_by_part score first others n Hparts). now left. }
    rewrite !filter_In. unfold right_hand_note, left_hand_note, marking.
    rewrite Hh, Hp. rewrite Z.leb_le, Z.ltb_lt. tauto.
  - intros n Hn.
    pose proof (later_parts_marked_left _ _ _ Hn) as Hh.
    assert (Hin : In n (notes (SongEditor_init (musicxml_to_json score)))).
    { apply (converter_notes_by_part score first others n Hparts). now right. }
    rewrite !filter_In. unfold right_hand_note, left_hand_note, marking.
    rewrite Hh. simpl. split; [tauto |]. intros [_ H]. discriminate.
Qed.

Lemma converted_first_part_is_split_by_threshold_witness :
  exists right left,
    result_notes (filter_right_hand (SongEditor_init (musicxml_to_json two_staves))
                    60 true) = Some right /\
    result_notes (filter_left_hand (SongEditor_init (musicxml_to_json two_staves))
                    60 true) = Some left /\
    (In (note_dict 55 0 1 (Some 64) "right") left <-> 55 < 60).
Proof.
  destruct (converted_first_part_is_split_by_threshold two_staves _ _ 60 eq_refl)
    as [r [l [Hr [Hl [Hfirst _]]]]].
  exists r, l. split; [exact Hr |]. split; [exact Hl |].
  apply (Hfirst (note_dict 55 0 1 (Some 64) "right") 55).
  - simpl. right. now left.
  - reflexivity.
Defined.

(** ** The deployment tool: validation *)

Module DeployFacts.
#[warnings="-notation-overridden"]
Import Deploy.

Lemma SectionCfg_tree_ind (P : SectionCfg -> Prop) :
  (forall name measures beats sections,
     (forall subsections, sections = Some (AList subsections) -> Forall P subsections) ->
     P (mkSectionCfg name measures beats sections)) ->
  forall section, P section.
Proof.
  intros Hstep. fix IH 1. intros [name measures beats sections].
  apply Hstep. intros subsections Hs.
  destruct sections as [[| items] |]; try discriminate.
  injection Hs as <-.
  induction items as [| s rest IHrest]; constructor; [apply IH | exact IHrest].
Qed.

Lemma check_range_ok (range : yaml_list number) (m1 m2 : deploy_message) :
  check_range range m1 m2 = Ok tt <-> valid_range (Some range).
Proof.
  unfold check_range, valid_range, number_gt, Qlt_bool. split.
  - destruct range as [| [| a [| b [| c rest]]]]; try discriminate.
    destruct (Qle_bool (number_value a) (number_value b)) eqn:E; simpl;
      [| discriminate].
    intros _. exists a, b. split; [reflexivity | now apply Qle_bool_iff].
  - intros [a [b [Hr Hle]]]. injection Hr as ->.
    apply Qle_bool_iff in Hle. now rewrite Hle.
Qed.

Lemma result_unit_cases (r : result unit) :
  r = Ok tt \/ exists e, r = Raise e.
Proof.
  destruct r as [[] | e]; [now left | right; now exists e].
Qed.

Lemma validate_section_ok (section : SectionCfg) :
  forall path, validate_section section path = Ok tt <-> valid_section section.
Proof.
  induction section as [name measures beats sections IH] using SectionCfg_tree_ind.
  intros path. cbn [validate_section].
  destruct name as [section_name |];
    [| split; [discriminate | intros H; inversion H]].
  set (current_path := if negb (string_is_empty path)
                       then (path ++ "/" ++ section_name)%string
                       else section_name).
  assert (Hloop : forall subsections,
            Forall (fun s => forall p, validate_section s p = Ok tt <-> valid_section s)
              subsections ->
            ((fix each (l : list SectionCfg) : result unit :=
                match l with
                | [] => Ok tt
                | subsection :: rest =>
                    bind (validate_section subsection current_path) (fun _ => each rest)
                end) subsections = Ok tt <-> Forall valid_section subsections)).
  { induction 1 as [| s rest Hs Hrest IHrest]; [split; [constructor | reflexivity] |].
    destruct (result_unit_cases (validate_section s current_path)) as [E | [e E]];
      rewrite E; simpl.
    - rewrite IHrest. split.
      + intros H. constructor; [now apply (Hs current_path) | exact H].
      + intros H. now inversion H.
    - split; [discriminate |]. intros H. inversion H as [| ? ? Hv _]; subst.
      apply (Hs current_path) in Hv. congruence. }
  destruct measures as [m |], beats as [b |]; simpl.
  - split; [discriminate |]. intros H. inversion H as [? ? ? ? Hr _]; subst.
    destruct Hr as [[_ Hb] | [Hm _]]; discriminate.
  - destruct (result_unit_cases
                (check_range m (MeasuresNotAPair current_path)
                   (MeasuresReversed current_path))) as [E | [e E]].
    + rewrite E. simpl. pose proof (proj1 (check_range_ok _ _ _) E) as Hm.
      destruct sections as [[| subsections] |].
      * split; [discriminate |]. intros H. inversion H as [? ? ? ? _ Hs]; subst.
        destruct Hs as [Hs | [ss [Hs _]]]; discriminate.
      * rewrite (Hloop subsections (IH subsections eq_refl)). split.
        -- intros H. constructor; [now left |]. right. now exists subsections.
        -- intros H. inversion H as [? ? ? ? _ Hs]; subst.
           destruct Hs as [Hs | [ss [Hs Hall]]]; [discriminate |].
           now injection Hs as <-.
      * split; [| reflexivity]. intros _. constructor; [now left | now left].
    + rewrite E. simpl. split; [discriminate |].
      intros H. inversion H as [? ? ? ? Hr _]; subst.
      destruct Hr as [[Hm _] | [Hm _]]; [| discriminate].
      apply (check_range_ok m (MeasuresNotAPair current_path)
               (MeasuresReversed current_path)) in Hm. congruence.
  - destruct (result_unit_cases
                (check_range b (BeatsNotAPair current_path)
                   (BeatsReversed current_path))) as [E | [e E]].
    + rewrite E. simpl. pose proof (proj1 (check_range_ok _ _ _) E) as Hb.
      destruct sections as [[| subsections] |].
      * split; [discriminate |]. intros H. inversion H as [? ? ? ? _ Hs]; subst.
        destruct Hs as [Hs | [ss [Hs _]]]; discriminate.
      * rewrite (Hloop subsections (IH subsections eq_refl)). split.
        -- intros H. constructor; [now right |]. right. now exists subsections.
        -- intros H. inversion H as [? ? ? ? _ Hs]; subst.
           destruct Hs as [Hs | [ss [Hs Hall]]]; [discriminate |].
           now injection Hs as <-.
      * split; [| reflexivity]. intros _. constructor; [now right | now left].
    + rewrite E. simpl. split; [discriminate |].
      intros H. inversion H as [? ? ? ? Hr _]; subst.
      destruct Hr as [[_ Hb] | [_ Hb]]; [discriminate |].
      apply (check_range_ok b (BeatsNotAPair current_path)
               (BeatsReversed current_path)) in Hb. congruence.
  - split; [discriminate |]. intros H. inversion H as [? ? ? ? Hr _]; subst.
    destruct Hr as [[[a [c [Hm _]]] _] | [_ [a [c [Hb _]]]]]; discriminate.
Qed.

Lemma validate_sections_ok (sections : list SectionCfg) :
  validate_sections sections = Ok tt <-> Forall valid_section sections.
Proof.
  induction sections as [| s rest IH]; simpl; [split; [constructor | reflexivity] |].
  destruct (result_unit_cases (validate_section s "")) as [E | [e E]];
    rewrite E; simpl.
  - rewrite IH. split.
    + intros H. constructor; [now apply (validate_section_ok s "") | exact H].
    + intros H. now inversion H.
  - split; [discriminate |]. intros H. inversion H as [| ? ? Hv _]; subst.
    apply (validate_section_ok s "") in Hv. congruence.
Qed.

(** [validate_config] accepts a configuration exactly when it has the five
    required keys, its sections are a non-empty list, and every section of
    the tree has a name, exactly one of "measures" and "beats", given as a
    pair whose first number is not above the second, and subsections that
    are a list.  In particular a reversed range anywhere in the tree is
    refused. *)
Theorem validate_config_accepts_valid_configurations (config : Config) :
  validate_config config = Ok tt <-> valid_config config.
Proof.
  unfold validate_config, valid_config, required_fields, check_required,
    config_contains. simpl.
  destruct (cfg_title config) as [t |]; simpl;
    [| split; [discriminate | intros [H _]; now elim H]].
  destruct (cfg_bpm config) as [b |]; simpl;
    [| split; [discriminate | intros [_ [H _]]; now elim H]].
  destruct (cfg_branch config) as [br |]; simpl;
    [| split; [discriminate | intros [_ [_ [H _]]]; now elim H]].
  destruct (cfg_source config) as [src |]; simpl;
    [| split; [discriminate | intros [_ [_ [_ [H _]]]]; now elim H]].
  destruct (cfg_sections config) as [[| [| first rest]] |]; simpl.
  - split; [discriminate |]. intros [_ [_ [_ [_ [f [r [H _]]]]]]]. discriminate.
  - split; [discriminate |]. intros [_ [_ [_ [_ [f [r [H _]]]]]]]. discriminate.
  - change (bind (validate_section first "") (fun _ => validate_sections rest))
      with (validate_sections (first :: rest)).
    rewrite validate_sections_ok. split.
    + intros H. repeat split; try discriminate. now exists first, rest.
    + intros [_ [_ [_ [_ [f [r [Heq H]]]]]]]. now injection Heq as <- <-.
  - split; [discriminate |]. intros [_ [_ [_ [_ [f [r [H _]]]]]]]. discriminate.
Qed.

(** ** The deployment tool: section paths *)

Lemma count_char_app (c : ascii) (a b : string) :
  count_char c (a ++ b) = (count_char c a + count_char c b)%nat.
Proof.
  induction a as [| x a' IH]; simpl; [reflexivity |].
  rewrite IH. now rewrite Nat.add_assoc.
Qed.

Lemma split_on_length (c : ascii) (s : string) :
  List.length (split_on c s) = S (count_char c s).
Proof.
  induction s as [| x s' IH]; simpl; [reflexivity |].
  destruct (Ascii.eqb x c); simpl; [now rewrite IH |].
  destruct (split_on c s') as [| f fs]; [discriminate IH | exact IH].
Qed.

Lemma split_on_plain (c : ascii) (s : string) :
  count_char c s = 0%nat -> split_on c s = [s].
Proof.
  induction s as [| x s' IH]; simpl; [reflexivity |].
  destruct (Ascii.eqb x c); simpl; [discriminate |].
  intros H. now rewrite (IH H).
Qed.

Lemma last_split_on_app (c : ascii) (a b d : string) :
  last (split_on c (a ++ String c b)) d = last (split_on c b) d.
Proof.
  induction a as [| x a' IH]; simpl.
  - rewrite Ascii.eqb_refl.
    pose proof (split_on_length c b) as Hlen.
    destruct (split_on c b); [discriminate Hlen | reflexivity].
  - pose proof (split_on_length c (a' ++ String c b)) as Hlen.
    rewrite count_char_app in Hlen. simpl in Hlen. rewrite Ascii.eqb_refl in Hlen.
    destruct (Ascii.eqb x c).
    + rewrite <- IH.
      destruct (split_on c (a' ++ String c b)); [discriminate Hlen | reflexivity].
    + rewrite <- IH.
      destruct (split_on c (a' ++ String c b)) as [| f [| g fs]]; simpl in *;
        try reflexivity; try discriminate Hlen.
      rewrite Nat.add_succ_r in Hlen. discriminate Hlen.
Qed.

Lemma string_is_empty_app (a b : string) :
  string_is_empty b = false -> string_is_empty (a ++ b) = false.
Proof.
  destruct a; simpl; [tauto | reflexivity].
Qed.

(** The path of a section named [name] under [parent_path], when the name
    is not empty and holds no hyphen: it is not empty, its last field is
    the name, and it holds one hyphen more than a non-empty parent path. *)
Lemma build_section_path_plain (parent_path name : string) :
  plain_name name = true ->
  string_is_empty (build_section_path parent_path name) = false /\
  display_name (build_section_path parent_path name) = name /\
  count_depth (build_section_path parent_path name) =
    if string_is_empty parent_path then 0%nat
    else S (count_depth parent_path).
Proof.
  unfold plain_name, build_section_path, display_name, count_depth.
  intros Hplain. apply andb_true_iff in Hplain. destruct Hplain as [Hne Hcount].
  apply negb_true_iff in Hne. apply Nat.eqb_eq in Hcount.
  destruct (string_is_empty parent_path) eqn:Ep; simpl.
  - split; [exact Hne |]. split; [| exact Hcount].
    now rewrite split_on_plain.
  - split; [| split].
    + apply string_is_empty_app. reflexivity.
    + change ("-" ++ name)%string with (String "-"%char name).
      rewrite last_split_on_app. now rewrite split_on_plain.
    + rewrite count_char_app. simpl. rewrite Hcount. now rewrite Nat.add_comm.
Qed.

(** ** The deployment tool: generation *)

Section GenerationFacts.

Variable path_join : string -> string -> string.
Variable path_exists : string -> bool.
Variable run : list string -> run_outcome.
Variable float_str : Q -> string.
Variable config : Config.
Variable song_dir : string.

Lemma each_outline {E O : Type} (g : SectionCfg -> result (list E))
    (view : E -> O) (out : SectionCfg -> list O) (subsections : list SectionCfg) :
  Forall (fun s => forall rs, g s = Ok rs -> map view rs = out s) subsections ->
  forall acc results,
    (fix each (l : list SectionCfg) (results : list E) : result (list E) :=
       match l with
       | [] => Ok results
       | subsection :: rest =>
           bind (g subsection) (fun sub_results => each rest (results ++ sub_results))
       end) subsections acc = Ok results ->
    map view results = map view acc ++ flat_map out subsections.
Proof.
  induction 1 as [| s rest Hs Hrest IH]; intros acc results.
  - intros H. injection H as <-. cbn [flat_map]. now rewrite app_nil_r.
  - destruct (g s) as [sub_results |] eqn:Hsub; [| discriminate].
    cbn [bind]. intros Hloop.
    rewrite (IH _ _ Hloop), map_app, (Hs _ eq_refl). cbn [flat_map].
    now rewrite app_assoc.
Qed.

Lemma generated_outline (section : SectionCfg) :
  forall parent_path depth results,
    generate_section_json path_join path_exists run float_str config section
      song_dir parent_path = Ok results ->
    Forall (fun o => plain_name (snd o) = true) (outline depth section) ->
    depth = (if string_is_empty parent_path then 0%nat
             else S (count_depth parent_path)) ->
    map (fun entry => (count_depth (fst (fst entry)), display_name (fst (fst entry))))
      results = outline depth section.
Proof.
  induction section as [name measures beats sections IH] using SectionCfg_tree_ind.
  intros parent_path depth results. cbn [generate_section_json outline].
  destruct name as [section_name |]; [| discriminate].
  cbn [getitem bind get].
  destruct (cfg_source config) as [source |]; [| discriminate].
  cbn [getitem bind].
  destruct (path_exists (path_join song_dir source)); cbn [negb]; [| discriminate].
  match goal with
  | |- bind ?b _ = _ -> _ => destruct b as [built |]; [| discriminate]
  end.
  cbn [bind].
  destruct (run (fst built)); [| discriminate | discriminate].
  intros Hgen Hplain Hdepth.
  inversion Hplain as [| ? ? Hname Hsubs]; subst. cbn [snd] in Hname.
  destruct (build_section_path_plain parent_path section_name Hname)
    as [Hne [Hdisplay Hcount]].
  destruct sections as [[| subsections] |]; [discriminate | |].
  - apply (each_outline
             (fun s => generate_section_json path_join path_exists run float_str
                         config s song_dir
                         (build_section_path parent_path section_name))
             (fun entry => (count_depth (fst (fst entry)),
                            display_name (fst (fst entry))))
             (outline (S (if string_is_empty parent_path then 0%nat
                          else S (count_depth parent_path))))) in Hgen.
    + rewrite Hgen. cbn [map fst app]. now rewrite Hdisplay, Hcount.
    + specialize (IH subsections eq_refl).
      rewrite Forall_forall in IH, Hsubs. apply Forall_forall. intros s Hs rs Hrs.
      apply (IH s Hs (build_section_path parent_path section_name)).
      * exact Hrs.
      * apply Forall_forall. intros o Ho. apply Hsubs.
        apply in_flat_map. now exists s.
      * rewrite Hne. f_equal. symmetry. exact Hcount.
  - injection Hgen as <-. cbn [map fst]. now rewrite Hdisplay, Hcount.
Qed.

(** The README reads the nesting depth of a section off the hyphens of
    its path and its display name off the last hyphen-separated field.  For
    a tree whose names are not empty and hold no hyphen, the entries that
    [generate_section_json] returns give, in order, the true depth and the
    name of every section of the tree. *)
Theorem generated_paths_give_depth_and_name (section : SectionCfg)
    (results : list (string * string * string)) :
  generate_section_json path_join path_exists run float_str config section
    song_dir EmptyString = Ok results ->
  Forall (fun o => plain_name (snd o) = true) (outline 0 section) ->
  map (fun entry => (count_depth (fst (fst entry)), display_name (fst (fst entry))))
    results = outline 0 section.
Proof.
  intros Hgen Hplain.
  now apply (generated_outline section EmptyString 0%nat results Hgen Hplain).
Qed.




End GenerationFacts.


Lemma generated_paths_give_depth_and_name_witness :
  exists results,
    generate_section_json slash_join every_path_exists every_run_succeeds
      no_float_text song_config verse "songs/x" EmptyString = Ok results /\
    Forall (fun o => plain_name (snd o) = true) (outline 0 verse) /\
    map (fun entry => (count_depth (fst (fst entry)), display_name (fst (fst entry))))
      results = [(0%nat, "verse"); (1%nat, "a"); (1%nat, "b")].
Proof.
  eexists. split; [reflexivity |].
  assert (Hplain : Forall (fun o => plain_name (snd o) = true) (outline 0 verse))
    by (repeat constructor).
  split; [exact Hplain |].
  exact (generated_paths_give_depth_and_name slash_join every_path_exists
           every_run_succeeds no_float_text song_config "songs/x" verse _
           eq_refl Hplain).
Defined.


End DeployFacts.

(** ** Beat ranges over floats *)

Module Binary64Facts.
Import Binary64.






End Binary64Facts.
